(** * eco9: the activity impact calculator of [src/backend/server.ts]

    A shallow embedding of [calculateImpact] (server.ts, lines 149-190) and of
    the presence check of the activity-creation handler (lines 496-523),
    followed by the properties the specification states about them.

    JavaScript numbers are IEEE 754 binary64 values; they are modelled with
    the bit-level specification [SpecFloat] of the standard library, so that
    products, quotients and [Math.round] are the ones the program computes,
    rounding errors, signed zeros, infinities and NaN included. *)

From Stdlib Require Import ZArith Bool List String Ascii Lia.
From Stdlib Require Import Floats.SpecFloat.
Import ListNotations.

Set Warnings "-register-all".

Local Open Scope string_scope.
Local Open Scope Z_scope.

(** ** JavaScript numbers *)

Module JS.

Definition Number := spec_float.

Definition prec : Z := 53.
Definition emax : Z := 1024.

(** [x * y] and [x / y] on numbers. *)
Definition mul (x y : Number) : Number := SFmul prec emax x y.
Definition div (x y : Number) : Number := SFdiv prec emax x y.

(** Comparisons: [x <= y], [x < y]; both are false when an operand is NaN. *)
Definition leb (x y : Number) : bool := SFleb x y.
Definition ltb (x y : Number) : bool := SFltb x y.

(** The number denoted by an integer literal. *)
Definition of_int (n : Z) : Number := binary_normalize prec emax n 0 false.

(** The number denoted by the decimal literal [digits * 10^-scale]: the
    binary64 value nearest to it.  Both [digits] and [10^scale] are exact
    for the literals of this program, and the IEEE quotient of two exact
    values is the correctly rounded quotient. *)
Definition dec (digits scale : Z) : Number :=
  div (of_int digits) (of_int (10 ^ scale)).

Definition zero : Number := S754_zero false.
Definition NaN : Number := S754_nan.

Definition is_nan (x : Number) : bool :=
  match x with S754_nan => true | _ => false end.

Definition is_zero (x : Number) : bool :=
  match x with S754_zero _ => true | _ => false end.

(** [Math.round(x)]: the integer nearest to [x], a tie going towards
    +Infinity; NaN, the infinities and the integers are returned as they
    are, and a result of magnitude zero keeps the sign of [x]. *)
Definition Math_round (x : Number) : Number :=
  match x with
  | S754_finite s m (Zneg k) =>
      (* |x| = m / 2^k with k >= 1 *)
      let half := 2 ^ (Zpos k - 1) in
      let n := if s then Z.shiftr (Zpos m + half - 1) (Zpos k)
               else Z.shiftr (Zpos m + half) (Zpos k) in
      match n with
      | Z0 => S754_zero s
      | _ => binary_normalize prec emax (if s then - n else n) 0 false
      end
  | _ => x
  end.

(** [has_sign s x]: [x] is a zero, or a non-zero number of sign [s]
    ([true] for negative); NaN has no sign.  [has_sign false x] is
    [0 <= x] and [has_sign true x] is [x <= 0]. *)
Definition has_sign (s : bool) (x : Number) : bool :=
  match x with
  | S754_zero _ => true
  | S754_infinity s' | S754_finite s' _ _ => Bool.eqb s s'
  | S754_nan => false
  end.

(** *** Values

    The values the calculator handles: [undefined], numbers, the object
    literals of the multiplier table, and the builtins that a property
    read reaches through [Object.prototype] (its methods, and
    [Object.prototype] itself under the key [__proto__]).  The properties
    of an object literal are kept in declaration order, the order in which
    [Object.keys] lists them (all keys of this program are names, none is
    an array index). *)
Inductive Val : Type :=
| VUndefined
| VNum (n : Number)
| VObj (props : list (string * Val))
| VBuiltin.

Inductive Error : Type := TypeError.

(** The outcome of evaluating an expression: a value, or an exception. *)
Inductive Completion (A : Type) : Type :=
| Normal (a : A)
| Throw (e : Error).
Arguments Normal {A} a.
Arguments Throw {A} e.

Definition bind {A B} (c : Completion A) (k : A -> Completion B) : Completion B :=
  match c with
  | Normal a => k a
  | Throw e => Throw e
  end.

(** ToBoolean *)
Definition truthy (v : Val) : bool :=
  match v with
  | VUndefined => false
  | VNum n => negb (is_zero n || is_nan n)
  | VObj _ | VBuiltin => true
  end.

(** ToNumber; an object literal or a builtin converts to a string that is
    not a numeral, hence to NaN. *)
Definition ToNumber (v : Val) : Number :=
  match v with
  | VNum n => n
  | VUndefined | VObj _ | VBuiltin => NaN
  end.

Fixpoint assoc {A} (k : string) (ps : list (string * A)) : option A :=
  match ps with
  | [] => None
  | (k', v) :: ps' => if String.eqb k k' then Some v else assoc k ps'
  end.

(** The property names every object inherits from [Object.prototype]. *)
Definition Object_prototype_names : list string :=
  [ "constructor"; "hasOwnProperty"; "isPrototypeOf"; "propertyIsEnumerable";
    "toLocaleString"; "toString"; "valueOf"; "__proto__";
    "__defineGetter__"; "__defineSetter__"; "__lookupGetter__"; "__lookupSetter__" ].

Definition inherited (k : string) : Val :=
  if existsb (String.eqb k) Object_prototype_names then VBuiltin else VUndefined.

(** [o[k]] and [o.k]: an own property first, then the prototype; reading a
    property of [undefined] throws.  Of a number or a builtin only the
    inherited properties are modelled, their own ones ([length], [name],
    ...) are never read by this program. *)
Definition get (o : Val) (k : string) : Completion Val :=
  match o with
  | VUndefined => Throw TypeError
  | VObj props =>
      Normal (match assoc k props with Some v => v | None => inherited k end)
  | VNum _ | VBuiltin => Normal (inherited k)
  end.

(** [Object.keys(o)]: the own enumerable property names; a builtin has
    none, [undefined] throws. *)
Definition Object_keys (o : Val) : Completion (list string) :=
  match o with
  | VUndefined => Throw TypeError
  | VObj props => Normal (map fst props)
  | VNum _ | VBuiltin => Normal []
  end.

(** [keys[i]] used as a property key: a missing element is [undefined],
    whose property key is the string "undefined". *)
Definition key_at (keys : list string) (i : nat) : string :=
  match nth_error keys i with
  | Some k => k
  | None => "undefined"
  end.

End JS.

Declare Scope js_scope.
Delimit Scope js_scope with js.
Infix "*" := JS.mul : js_scope.
Infix "/" := JS.div : js_scope.
Infix "<=" := JS.leb : js_scope.
Infix "<" := JS.ltb : js_scope.
Notation "x <- c1 ;; c2" := (JS.bind c1 (fun x => c2))
  (at level 61, c1 at next level, right associativity) : js_scope.
Notation "' pat <- c1 ;; c2" := (JS.bind c1 (fun x => match x with pat => c2 end))
  (at level 61, pat pattern, c1 at next level, right associativity) : js_scope.
(** [a ||| b] is JavaScript's [a || b]: [b] is evaluated only when [a] is falsy. *)
Notation "a ||| b" :=
  (JS.bind a (fun x => if JS.truthy x then JS.Normal x else b))
  (at level 50, left associativity) : js_scope.

(** ** The calculator (server.ts, lines 149-190) *)

Module Impact.
Import JS.
Local Open Scope js_scope.

Record ImpactResult : Type :=
  { co2_saved : Number; water_conserved : Number }.

(** The literal [impactMultipliers], subtypes and fields in source order. *)
Definition impactMultipliers_props : list (string * Val) :=
  [ ("transport", VObj
      [ ("biking", VObj [ ("co2_per_mile", VNum (dec 4 1)); ("water_per_mile", VNum (dec 1 1)) ]);
        ("walking", VObj [ ("co2_per_mile", VNum (dec 3 1)); ("water_per_mile", VNum (dec 5 2)) ]);
        ("public_transport", VObj [ ("co2_per_mile", VNum (dec 2 1)); ("water_per_mile", VNum (dec 8 2)) ]) ]);
    ("energy", VObj
      [ ("solar", VObj [ ("co2_per_kwh", VNum (dec 25 1)); ("water_per_kwh", VNum (dec 5 1)) ]);
        ("led_bulbs", VObj [ ("co2_per_hour", VNum (dec 1 1)); ("water_per_hour", VNum (dec 2 2)) ]) ]);
    ("waste", VObj
      [ ("recycling", VObj [ ("co2_per_kg", VNum (dec 18 1)); ("water_per_kg", VNum (dec 3 1)) ]);
        ("composting", VObj [ ("co2_per_kg", VNum (dec 21 1)); ("water_per_kg", VNum (dec 4 1)) ]) ]) ].

Definition impactMultipliers : Val := VObj impactMultipliers_props.

Definition calculateImpact (category : string) (value : Number) (unit : string)
  : Completion ImpactResult :=
  let co2_saved := value * dec 5 1 in
  let water_conserved := value * dec 1 1 in
  c <- get impactMultipliers category ;;
  ' (co2_saved, water_conserved) <-
    (if truthy c then
       categoryData <- get impactMultipliers category ;;
       keys <- Object_keys categoryData ;;
       let firstKey := key_at keys 0 in
       first <- get categoryData firstKey ;;
       if truthy first then
         let field name := (o <- get categoryData firstKey ;; get o name) in
         co2 <- (field "co2_per_mile" ||| field "co2_per_kwh"
                 ||| field "co2_per_kg" ||| Normal (VNum (dec 5 1))) ;;
         water <- (field "water_per_mile" ||| field "water_per_kwh"
                   ||| field "water_per_kg" ||| Normal (VNum (dec 1 1))) ;;
         Normal (value * ToNumber co2, value * ToNumber water)
       else Normal (co2_saved, water_conserved)
     else Normal (co2_saved, water_conserved)) ;;
  Normal {| co2_saved := Math_round (co2_saved * of_int 100) / of_int 100;
            water_conserved := Math_round (water_conserved * of_int 100) / of_int 100 |}.


(** *** The vocabulary of the specification *)

(** [round2(x) = round(x * 100) / 100] *)
Definition round2 (x : Number) : Number :=
  Math_round (x * of_int 100) / of_int 100.

(** The categories of the table, in declaration order. *)
Definition categories : list string := map fst impactMultipliers_props.

(** The first declared subtype of a category of the table. *)
Definition firstSubtypeOf (category : string) : option (string * Val) :=
  match assoc category impactMultipliers_props with
  | Some (VObj subtypes) => hd_error subtypes
  | _ => None
  end.

(** The factor of a multiplier record for a quantity ("co2" or "water"):
    the field whose name starts with that quantity, whatever the unit in
    the rest of the name. *)
Definition factor (quantity : string) (multiplier : Val) : option Number :=
  match multiplier with
  | VObj fields =>
      match find (fun kv => prefix quantity (fst kv)) fields with
      | Some (_, VNum f) => Some f
      | _ => None
      end
  | _ => None
  end.

(** Multiplier resolution (section 4.1 of the specification): the factors
    of the first subtype of a known category, the global default
    otherwise. *)
Definition multiplier (category : string) : Number * Number :=
  if String.eqb category "transport" then (dec 4 1, dec 1 1)
  else if String.eqb category "energy" then (dec 25 1, dec 5 1)
  else if String.eqb category "waste" then (dec 18 1, dec 3 1)
  else (dec 5 1, dec 1 1).

Definition impact_of (value : Number) (m : Number * Number) : ImpactResult :=
  {| co2_saved := round2 (value * fst m);
     water_conserved := round2 (value * snd m) |}.

End Impact.

(** ** The activity-creation endpoint (server.ts, lines 117-143 and 496-523)

    The handler is modelled by the events it produces, in order: the call of
    the calculator it makes, if any, and the response it sends.  The body of
    a 201 response (a fresh id, the user, the time, the fields of the request
    and the result of the call) is left out. *)

Module Server.
Import JS.

(** A value of the request body, as [express.json()] parses it. *)
Inductive Json : Type :=
| JNull
| JBool (b : bool)
| JNum (n : Number)
| JStr (s : string)
| JArr (items : list Json)
| JObj (members : list (string * Json)).

(** A field read off [req.body]; an absent field reads as [undefined]. *)
Definition Field : Type := option Json.

(** ToBoolean of a field. *)
Definition truthy_field (f : Field) : bool :=
  match f with
  | None | Some JNull => false
  | Some (JBool b) => b
  | Some (JNum n) => negb (is_zero n || is_nan n)
  | Some (JStr s) => negb (String.eqb s "")
  | Some (JArr _) | Some (JObj _) => true
  end.

Record ActivityBody : Type :=
  { category : Field; value : Field; unit : Field;
    timestamp : Field; notes : Field }.

Inductive Event : Type :=
| CalculateImpact (category value unit : Field)
| Respond (status : Z) (error_code : option string).

(** The handler of [POST /api/activities]. *)
Definition create_activity (body : ActivityBody) : list Event :=
  if negb (truthy_field (category body)) || negb (truthy_field (value body))
     || negb (truthy_field (unit body))
  then [Respond 400 (Some "MISSING_REQUIRED_FIELDS")]
  else [CalculateImpact (category body) (value body) (unit body);
        Respond 201 None].

(** The outcome of the token check made by the middleware before the
    handler runs. *)
Inductive Auth : Type :=
| TokenMissing | TokenInvalid | UserNotFound | Authenticated.

Definition authenticateToken (a : Auth) (next : list Event) : list Event :=
  match a with
  | TokenMissing => [Respond 401 (Some "AUTH_TOKEN_MISSING")]
  | UserNotFound => [Respond 401 (Some "AUTH_USER_NOT_FOUND")]
  | TokenInvalid => [Respond 403 (Some "AUTH_TOKEN_INVALID")]
  | Authenticated => next
  end.

Definition post_api_activities (a : Auth) (body : ActivityBody) : list Event :=
  authenticateToken a (create_activity body).

End Server.

(** ** Vocabulary for the rounding of binary64 operations

    [SpecFloat] rounds a significand [m] at exponent [e], with the position
    [l] of the discarded part, in three steps: a right shift to the target
    exponent, the round-to-nearest-even decision, and a renormalisation.
    The definitions below name these steps on shift records, so that the
    order of the results can be read off the order of the records. *)

Module Rounding.
Import JS.

(** A shift record as an integer: the significand followed by the round
    and sticky bits.  Records at one exponent are ordered as their codes. *)
Definition code (mrs : shr_record) : Z :=
  4 * shr_m mrs + (if shr_r mrs then 2 else 0) + (if shr_s mrs then 1 else 0).

(** [n] right shifts of one bit. *)
Definition shrn (n : nat) (mrs : shr_record) : shr_record := Nat.iter n shr_1 mrs.

(** The round-to-nearest-even decision on a record. *)
Definition rne (mrs : shr_record) : Z :=
  round_nearest_even (shr_m mrs) (loc_of_shr_record mrs).

(** The number of significand [n] and exponent [t], overflow included. *)
Definition pack (n t : Z) : Number :=
  match n with
  | Z0 => S754_zero false
  | Zpos p => if t <=? 971 then S754_finite false p t else S754_infinity false
  | Zneg _ => S754_nan
  end.

(** The last step of [binary_round_aux]: renormalise after a carry. *)
Definition finish (n t : Z) : Number :=
  let '(mrs, e) := shr_fexp prec emax n t loc_Exact in pack (shr_m mrs) e.

(** [binary_round_aux] on a record, for a non-negative result. *)
Definition rounded (mrs : shr_record) (e : Z) : Number :=
  binary_round_aux prec emax false (shr_m mrs) e (loc_of_shr_record mrs).

(** The exponent the first step shifts to. *)
Definition target (mrs : shr_record) (e : Z) : Z :=
  fexp prec emax (Zdigits2 (shr_m mrs) + e).

(** The binary64 numbers: canonical significand and exponent in range. *)
Definition valid (x : Number) : bool := valid_binary prec emax x.

(** Significand and exponent produced by the first rounding step are
    those of a canonical number, up to the carry into bit 53. *)
Definition canonical_pair (n t : Z) : Prop :=
  0 <= n <= 2 ^ 53 /\ -1074 <= t /\ (t = -1074 \/ 2 ^ 52 <= n).

(** The record of an exactly known significand. *)
Definition exact (m : Z) : shr_record := Build_shr_record m false false.

(** [0 <= x <= y] on binary64 numbers. *)
Definition ordered (x y : Number) : Prop :=
  valid x = true /\ valid y = true /\
  has_sign false x = true /\ has_sign false y = true /\ leb x y = true.

(** A positive normal number: its significand has 53 digits. *)
Definition normal (c : Number) : bool :=
  match c with
  | S754_finite false m e => Zdigits2 (Zpos m) =? 53
  | _ => false
  end.

(** [c1 <= c2] for positive finite numbers, on significands brought to the
    smaller exponent. *)
Definition aligned_le (c1 c2 : Number) : bool :=
  match c1, c2 with
  | S754_finite false m1 e1, S754_finite false m2 e2 =>
      let e := Z.min e1 e2 in
      Zpos m1 * 2 ^ (e1 - e) <=? Zpos m2 * 2 ^ (e2 - e)
  | _, _ => false
  end.

(** The quotient [a / d] truncated to an integer, with the position of the
    remainder, as [SFdiv_core_binary] computes it. *)
Definition divrec (a d : Z) : shr_record :=
  let '(q, r) := Z.div_eucl a d in shr_record_of_loc q (new_location d r).

(** The position of [r / d] in the unit interval, for [0 <= r < d]. *)
Definition position (d r : Z) : location :=
  if r =? 0 then loc_Exact else loc_Inexact (2 * r ?= d).

End Rounding.

(** ** More of the language: addition, array slices, string splitting *)

Module JSLib.
Import JS.

(** [x + y] on numbers. *)
Definition add (x y : Number) : Number := SFadd prec emax x y.

(** [Number.isFinite(x)] *)
Definition is_finite (x : Number) : bool :=
  match x with
  | S754_zero _ | S754_finite _ _ _ => true
  | S754_infinity _ | S754_nan => false
  end.

Inductive IntegerOrInfinity : Type :=
| Finite (n : Z)
| PlusInfinity
| MinusInfinity.

(** ToIntegerOrInfinity: NaN and the zeros give 0, a finite number is
    truncated towards zero. *)
Definition ToIntegerOrInfinity (x : Number) : IntegerOrInfinity :=
  match x with
  | S754_nan | S754_zero _ => Finite 0
  | S754_infinity false => PlusInfinity
  | S754_infinity true => MinusInfinity
  | S754_finite s m e =>
      let t := match e with
               | Zneg k => Z.shiftr (Zpos m) (Zpos k)
               | _ => Zpos m * 2 ^ e
               end in
      Finite (if s then - t else t)
  end.

(** The index a relative position of [slice] denotes in an array of length
    [len]: a negative position counts from the end, and every position is
    clamped to the array. *)
Definition relative (len : Z) (i : IntegerOrInfinity) : Z :=
  match i with
  | MinusInfinity => 0
  | PlusInfinity => len
  | Finite n => if n <? 0 then Z.max (len + n) 0 else Z.min n len
  end.

(** [items.slice(start, end)]; [end_ = None] is a call without the second
    argument. *)
Definition slice {A} (items : list A) (start : Number) (end_ : option Number) : list A :=
  let len := Z.of_nat (List.length items) in
  let k := relative len (ToIntegerOrInfinity start) in
  let final := match end_ with
               | None => len
               | Some e => relative len (ToIntegerOrInfinity e)
               end in
  firstn (Z.to_nat (final - k)) (skipn (Z.to_nat k) items).

(** [s.split(sep)] for a separator of one character: the pieces between
    the occurrences of [sep], empty pieces included; the result is never
    empty. *)
Fixpoint split_on (sep : ascii) (s : string) : list string :=
  match s with
  | EmptyString => [EmptyString]
  | String c s' =>
      if Ascii.eqb c sep then EmptyString :: split_on sep s'
      else match split_on sep s' with
           | w :: ws => String c w :: ws
           | [] => [String c EmptyString]
           end
  end.

(** [s.includes(c)] for a character [c]. *)
Fixpoint contains (c : ascii) (s : string) : bool :=
  match s with
  | EmptyString => false
  | String c' s' => Ascii.eqb c' c || contains c s'
  end.

End JSLib.

(** ** The other callers of the calculator and the list endpoints
    (server.ts, lines 126-147, 482, 557-578 and 604-634) *)

Module Endpoints.
Import JS JSLib Server Impact.

(** The page every list endpoint returns:
    [items.slice(Number(offset), Number(offset) + Number(limit))], given the
    two numbers [Number(offset)] and [Number(limit)]. *)
Definition paginate {A} (items : list A) (offset limit : Number) : list A :=
  slice items offset (Some (add offset limit)).

(** [f || d] on a field of the request body. *)
Definition or_default (f : Field) (d : Json) : Json :=
  match f with
  | Some j => if truthy_field f then j else d
  | None => d
  end.

(** The handler of [PUT /api/activities/:activity_id]: it calls
    [calculateImpact(category || 'transport', value || 5.2, unit || 'miles')]
    and answers 200. *)
Definition update_activity (body : ActivityBody) : list Event :=
  [CalculateImpact (Some (or_default (category body) (JStr "transport")))
                   (Some (or_default (value body) (JNum (dec 52 1))))
                   (Some (or_default (unit body) (JStr "miles")));
   Respond 200 None].

Definition put_api_activities (a : Auth) (body : ActivityBody) : list Event :=
  authenticateToken a (update_activity body).

(** The result of a call of the calculator on a category string and a
    number.  The unit is passed along when it is a string; the calculator
    never reads it. *)
Definition call_result (e : Event) : option (Completion ImpactResult) :=
  match e with
  | CalculateImpact (Some (JStr c)) (Some (JNum v)) u =>
      Some (calculateImpact c v
              match u with Some (JStr s) => s | _ => EmptyString end)
  | _ => None
  end.

(** A row of the [historical_data] of [GET /api/impact]. *)
Record HistoryRow : Type :=
  { date : string; day_co2_saved : Number; day_water_conserved : Number }.

Definition mock_historical_data : list HistoryRow :=
  [ {| date := "2024-01-01"; day_co2_saved := dec 125 1; day_water_conserved := dec 32 1 |};
    {| date := "2024-01-02"; day_co2_saved := dec 83 1; day_water_conserved := dec 21 1 |};
    {| date := "2024-01-03"; day_co2_saved := dec 152 1; day_water_conserved := dec 48 1 |};
    {| date := "2024-01-04"; day_co2_saved := dec 98 1; day_water_conserved := dec 22 1 |} ].

(** The [historical_data] that [GET /api/impact] returns for a [range]. *)
Definition impact_history (range : string) : list HistoryRow :=
  if String.eqb range "daily" then slice mock_historical_data (of_int (-7)) None
  else if String.eqb range "weekly" then slice mock_historical_data (of_int (-4)) None
  else mock_historical_data.

(** The token the middleware reads:
    [authHeader && authHeader.split(' ')[1]], with [None] for [undefined]. *)
Definition header_token (authHeader : option string) : option string :=
  match authHeader with
  | None => None
  | Some EmptyString => Some EmptyString
  | Some h => nth_error (split_on " " h) 1
  end.

Section TokenCheck.
(** [jwt.verify(token, JWT_SECRET)], giving the [user_id] of the payload or
    throwing ([None]), and the query of the user by id, giving its rows or
    throwing ([None]). *)
Context {UserId User : Type}.
Variable verify : string -> option UserId.
Variable find_user : UserId -> option (list User).

(** The outcome of [authenticateToken] on a request. *)
Definition token_check (authHeader : option string) : Auth :=
  match header_token authHeader with
  | None | Some EmptyString => TokenMissing
  | Some token =>
      match verify token with
      | None => TokenInvalid
      | Some user_id =>
          match find_user user_id with
          | None => TokenInvalid
          | Some [] => UserNotFound
          | Some (_ :: _) => Authenticated
          end
      end
  end.
End TokenCheck.

End Endpoints.

(** ** Accounts: registration, login and profile update (server.ts, lines
    199-291 and 327-388, and the [users] table of db.sql) *)

Module Accounts.
Import JS Server.

(** A row of the table [users]; [created_at] is left out. *)
Record User : Type :=
  { id : Z; username : string; email : string; password_hash : string;
    full_name : option string; profile_image_url : option string }.

(** The table and the next value of the sequence behind [id SERIAL]. *)
Record Db : Type := { users : list User; next_id : Z }.

(** The user object of a response: the row without its password. *)
Record PublicUser : Type :=
  { pu_id : Z; pu_username : string; pu_email : string;
    pu_full_name : option string; pu_profile_image_url : option string }.

Definition public (u : User) : PublicUser :=
  {| pu_id := id u; pu_username := username u; pu_email := email u;
     pu_full_name := full_name u; pu_profile_image_url := profile_image_url u |}.

Inductive Reply : Type :=
| Failure (status : Z) (error_code : string)
| Session (status : Z) (user : PublicUser) (auth_token : string).

(** The data [createUserInputSchema.parse] returns. *)
Record NewUser : Type :=
  { nu_username : string; nu_email : string; nu_password_hash : string;
    nu_full_name : option string; nu_profile_image_url : option string }.

(** The table after the seed of db.sql. *)
Definition seed_db : Db :=
  {| users :=
       [ {| id := 1; username := "john_doe"; email := "john@example.com";
            password_hash := "password123"; full_name := Some "John Doe";
            profile_image_url := Some "https://picsum.photos/seed/john_doe/200/300" |};
         {| id := 2; username := "jane_smith"; email := "jane@example.com";
            password_hash := "admin123"; full_name := Some "Jane Smith";
            profile_image_url := Some "https://picsum.photos/seed/jane_smith/200/300" |};
         {| id := 3; username := "mike_brown"; email := "mike@example.com";
            password_hash := "user123"; full_name := Some "Mike Brown";
            profile_image_url := Some "https://picsum.photos/seed/mike_brown/200/300" |};
         {| id := 4; username := "sarah_wilson"; email := "sarah@example.com";
            password_hash := "password123"; full_name := Some "Sarah Wilson";
            profile_image_url := Some "https://picsum.photos/seed/sarah_wilson/200/300" |};
         {| id := 5; username := "alex_jones"; email := "alex@example.com";
            password_hash := "admin123"; full_name := Some "Alex Jones";
            profile_image_url := Some "https://picsum.photos/seed/alex_jones/200/300" |} ];
     next_id := 6 |}.

(** The data [updateUserInputSchema.parse] returns; an absent field is
    [undefined]. *)
Record UserUpdate : Type :=
  { up_username : option string; up_email : option string;
    up_full_name : option string; up_profile_image_url : option string }.

(** The UPDATE statement a profile update builds: the SET clauses
    [column = $n] in order, the placeholder of [WHERE id = $n], and the
    values bound to the placeholders. *)
Record UpdateQuery : Type :=
  { set_clauses : list (string * nat); where_placeholder : nat;
    query_values : list string }.

Inductive UpdatePlan : Type :=
| Refused (status : Z) (error_code : string)
| Run (q : UpdateQuery).

(** One step of the construction: for a supplied field, push the clause
    with the next placeholder and push the value. *)
Definition push_field (column : string) (v : option string)
    (st : list (string * nat) * list string * nat)
  : list (string * nat) * list string * nat :=
  let '(updateFields, updateValues, paramCount) := st in
  match v with
  | Some x => ((updateFields ++ [(column, paramCount)])%list,
              (updateValues ++ [x])%list, S paramCount)
  | None => st
  end.

(** [password_hash !== user.password_hash] negated: strict equality of a
    body field with a stored string. *)
Definition same_string (f : Field) (s : string) : bool :=
  match f with
  | Some (JStr p) => String.eqb p s
  | _ => false
  end.

Section Accounts.
(** [normalize e] is [e.toLowerCase().trim()]; [sign now id email] is
    [jwt.sign({ user_id, email }, JWT_SECRET, { expiresIn: '7d' })] called
    at the time [now], which the token records; and [parse] is
    [createUserInputSchema.parse], a schema that is not part of the sources
    at hand; [None] stands for the ZodError it throws. *)
Variable normalize : string -> string.
Variable sign : Z -> Z -> string -> string.
Variable parse : Json -> option NewUser.

(** The fields a validated update supplies, in the order the handler
    looks at them, the email normalised. *)
Definition supplied (d : UserUpdate) : list (string * string) :=
  flat_map (fun cv => match snd cv with Some x => [(fst cv, x)] | None => [] end)
    [ ("username", up_username d); ("email", option_map normalize (up_email d));
      ("full_name", up_full_name d); ("profile_image_url", up_profile_image_url d) ].

(** [PUT /api/users/:user_id] up to the statement it sends: [requester] is
    [req.user.id.toString()] and [parse_update user_id body] is
    [updateUserInputSchema.parse({ id: user_id, ...req.body })]. *)
Definition update_user (parse_update : string -> Json -> option UserUpdate)
    (requester user_id : string) (body : Json) : UpdatePlan :=
  if negb (String.eqb requester user_id) then Refused 403 "FORBIDDEN"
  else match parse_update user_id body with
       | None => Refused 400 "VALIDATION_ERROR"
       | Some d =>
           let st := ([], [], 1%nat) in
           let st := push_field "username" (up_username d) st in
           let st := push_field "email" (option_map normalize (up_email d)) st in
           let st := push_field "full_name" (up_full_name d) st in
           let st := push_field "profile_image_url" (up_profile_image_url d) st in
           let '(updateFields, updateValues, paramCount) := st in
           if Nat.eqb (List.length updateFields) 0
           then Refused 400 "NO_UPDATE_FIELDS"
           else Run {| set_clauses := updateFields;
                       where_placeholder := paramCount;
                       query_values := updateValues ++ [user_id] |}
       end.

(** [POST /api/auth/login] on the fields [email] and [password_hash] of the
    body.  A truthy [email] that is not a string has no [toLowerCase]: the
    call throws and the handler answers 500. *)
Definition login (now : Z) (email_field password_field : Field) (db : Db) : Reply :=
  if negb (truthy_field email_field) || negb (truthy_field password_field)
  then Failure 400 "MISSING_REQUIRED_FIELDS"
  else match email_field with
       | Some (JStr e) =>
           match filter (fun u => String.eqb (email u) (normalize e)) (users db) with
           | [] => Failure 400 "INVALID_CREDENTIALS"
           | user :: _ =>
               if same_string password_field (password_hash user)
               then Session 200 (public user) (sign now (id user) (email user))
               else Failure 400 "INVALID_CREDENTIALS"
           end
       | _ => Failure 500 "INTERNAL_SERVER_ERROR"
       end.

(** [POST /api/auth/register].  The duplicate check compares the email as
    validated; the row is inserted with the normalised email, and the
    insertion fails on the UNIQUE constraints of [username] and [email], an
    error that the handler answers with 500.  The sequence advances whether
    the insertion succeeds or not. *)
Definition register (now : Z) (body : Json) (db : Db) : Reply * Db :=
  match parse body with
  | None => (Failure 400 "VALIDATION_ERROR", db)
  | Some v =>
      if existsb (fun u => String.eqb (email u) (nu_email v)
                           || String.eqb (username u) (nu_username v)) (users db)
      then (Failure 400 "USER_ALREADY_EXISTS", db)
      else
        let row := {| id := next_id db; username := nu_username v;
                      email := normalize (nu_email v);
                      password_hash := nu_password_hash v;
                      full_name := nu_full_name v;
                      profile_image_url := nu_profile_image_url v |} in
        if existsb (fun u => String.eqb (username u) (username row)
                             || String.eqb (email u) (email row)) (users db)
        then (Failure 500 "INTERNAL_SERVER_ERROR",
              {| users := users db; next_id := next_id db + 1 |})
        else (Session 201 (public row) (sign now (id row) (email row)),
              {| users := users db ++ [row]; next_id := next_id db + 1 |})
  end.

End Accounts.

End Accounts.

(** ** Signs of rounded results *)

Module SignFacts.
Import JS.

Lemma leb_zero_l x : leb zero x = has_sign false x.
Proof. destruct x as [s|[]| |[] m e]; reflexivity. Qed.

Lemma leb_zero_r x : leb x zero = has_sign true x.
Proof. destruct x as [s|[]| |[] m e]; reflexivity. Qed.

Lemma ltb_zero_has_sign x : ltb x zero = true -> has_sign true x = true.
Proof. destruct x as [s|[]| |[] m e]; easy. Qed.

Lemma iter_pos_invariant {A} (P : A -> Prop) (f : A -> A) :
  (forall x, P x -> P (f x)) -> forall n x, P x -> P (iter_pos f n x).
Proof.
  intros Hf; induction n as [n IH|n IH|]; intros x Hx; cbn; auto.
Qed.

Section Sign.
Variables prec emax : Z.

Lemma shr_1_nonneg mrs : 0 <= shr_m mrs -> 0 <= shr_m (shr_1 mrs).
Proof. destruct mrs as [[|[p|p|]|p] r s]; cbn; lia. Qed.

Lemma shr_nonneg mrs e n : 0 <= shr_m mrs -> 0 <= shr_m (fst (shr mrs e n)).
Proof.
  intros H; destruct n as [|p|p]; cbn; auto.
  apply iter_pos_invariant; auto using shr_1_nonneg.
Qed.

Lemma shr_fexp_nonneg m e l :
  0 <= m -> 0 <= shr_m (fst (shr_fexp prec emax m e l)).
Proof.
  intros H; unfold shr_fexp; apply shr_nonneg.
  destruct l as [|[]]; exact H.
Qed.

Lemma round_nearest_even_nonneg m l : 0 <= m -> 0 <= round_nearest_even m l.
Proof.
  intros H; destruct l as [|[]]; cbn; try lia.
  destruct (Z.even m); lia.
Qed.

(** Rounding a non-negative significand gives a zero, a finite number
    or an infinity of the requested sign, never NaN. *)
Lemma binary_round_aux_sign s m e l :
  0 <= m -> has_sign s (binary_round_aux prec emax s m e l) = true.
Proof.
  intros H; unfold binary_round_aux.
  pose proof (shr_fexp_nonneg m e l H) as H1.
  destruct (shr_fexp prec emax m e l) as [mrs' e']; cbn [fst] in H1.
  pose proof (shr_fexp_nonneg _ e' loc_Exact
                (round_nearest_even_nonneg _ (loc_of_shr_record mrs') H1)) as H2.
  destruct (shr_fexp prec emax _ e' loc_Exact) as [mrs'' e'']; cbn [fst] in H2.
  destruct (shr_m mrs'') as [|p|p]; cbn.
  - reflexivity.
  - destruct (e'' <=? emax - prec); cbn; apply eqb_reflx.
  - lia.
Qed.

Lemma binary_round_sign s m e :
  has_sign s (binary_round prec emax s m e) = true.
Proof.
  unfold binary_round.
  destruct (shl_align m e _) as [mz ez].
  apply binary_round_aux_sign; lia.
Qed.

Lemma SFdiv_core_binary_nonneg m1 e1 m2 e2 :
  0 <= fst (fst (SFdiv_core_binary prec emax (Zpos m1) e1 (Zpos m2) e2)).
Proof.
  unfold SFdiv_core_binary.
  set (s := _ - _ - _).
  set (m' := match s with Z0 => _ | Zpos _ => _ | Zneg _ => _ end).
  assert (Hm : 0 <= m').
  { subst m'; destruct s; try lia. apply Z.shiftl_nonneg; lia. }
  destruct (Z.div_eucl m' (Z.pos m2)) as [q r] eqn:E; cbn [fst].
  assert (Hq : q = m' / Z.pos m2) by (unfold Z.div; now rewrite E).
  rewrite Hq; apply Z.div_pos; lia.
Qed.

Lemma SFmul_sign s x mf ef :
  has_sign s x = true ->
  has_sign s (SFmul prec emax x (S754_finite false mf ef)) = true.
Proof.
  destruct x as [s0|s0| |s0 m e]; cbn [SFmul has_sign];
    rewrite ?xorb_false_r; try easy.
  intros H; apply eqb_prop in H; subst s0.
  apply binary_round_aux_sign; lia.
Qed.

Lemma SFdiv_sign s x mf ef :
  has_sign s x = true ->
  has_sign s (SFdiv prec emax x (S754_finite false mf ef)) = true.
Proof.
  destruct x as [s0|s0| |s0 m e]; cbn [SFdiv has_sign];
    rewrite ?xorb_false_r; try easy.
  intros H; apply eqb_prop in H; subst s0.
  pose proof (SFdiv_core_binary_nonneg m e mf ef) as Hq.
  destruct (SFdiv_core_binary prec emax _ e _ ef) as [[mz ez] lz]; cbn [fst] in Hq.
  now apply binary_round_aux_sign.
Qed.
End Sign.

Lemma Math_round_sign s x :
  has_sign s x = true -> has_sign s (Math_round x) = true.
Proof.
  destruct x as [s0|s0| |s0 m [|e|k]]; cbn [Math_round]; try easy.
  cbn [has_sign]; intros H; apply eqb_prop in H; subst s0.
  set (half := 2 ^ (Z.pos k - 1)).
  assert (Hhalf : 0 < half) by (apply Z.pow_pos_nonneg; lia).
  set (n := if s then _ else _).
  assert (Hn : 0 <= n).
  { subst n; destruct s; apply Z.shiftr_nonneg; lia. }
  destruct n as [|p|p]; [reflexivity| |lia].
  destruct s; cbn [Z.opp binary_normalize]; apply binary_round_sign.
Qed.

Lemma hundred_finite : exists m e, of_int 100 = S754_finite false m e.
Proof. vm_compute; do 2 eexists; reflexivity. Qed.

End SignFacts.

(** ** Monotonicity of rounded results

    Products by a positive constant, [Math.round] and quotients by a
    positive constant preserve the order of non-negative binary64
    numbers. *)

Module RoundingFacts.
Import JS Rounding SignFacts.

(** *** Digits of a significand *)

Lemma fexp_eq e : fexp prec emax e = Z.max (e - 53) (-1074).
Proof. reflexivity. Qed.

Lemma digits2_pos_size p : digits2_pos p = Pos.size p.
Proof. induction p; cbn; congruence. Qed.

Lemma Zdigits2_log2 m : 0 < m -> Zdigits2 m = Z.log2 m + 1.
Proof.
  destruct m as [|p|p]; try lia; intros _.
  destruct p; cbn; rewrite ?digits2_pos_size; lia.
Qed.

Lemma Zdigits2_nonneg m : 0 <= Zdigits2 m.
Proof. destruct m; cbn; lia. Qed.

Lemma Zdigits2_bounds m : 0 < m -> 2 ^ (Zdigits2 m - 1) <= m < 2 ^ Zdigits2 m.
Proof.
  intros H; rewrite (Zdigits2_log2 m H).
  replace (Z.log2 m + 1 - 1) with (Z.log2 m) by lia.
  apply Z.log2_spec, H.
Qed.

Lemma Zdigits2_mono m1 m2 : 0 <= m1 <= m2 -> Zdigits2 m1 <= Zdigits2 m2.
Proof.
  intros [H1 H2].
  destruct (Z.eq_dec m1 0) as [->|Hn]; [apply Zdigits2_nonneg|].
  rewrite !Zdigits2_log2 by lia.
  apply Z.add_le_mono_r, Z.log2_le_mono, H2.
Qed.

Lemma Zdigits2_unique m d : 2 ^ (d - 1) <= m < 2 ^ d -> 0 < d -> Zdigits2 m = d.
Proof.
  intros H Hd.
  assert (0 < m) by (pose proof (Z.pow_pos_nonneg 2 (d - 1)); lia).
  rewrite Zdigits2_log2 by lia.
  rewrite (Z.log2_unique m (d - 1)); try lia.
  replace (Z.succ (d - 1)) with d by lia; exact H.
Qed.

Lemma Zdigits2_div2 m : 0 <= m -> Zdigits2 (m / 2) = Z.max 0 (Zdigits2 m - 1).
Proof.
  intros H.
  destruct (Z.eq_dec m 0) as [->|Hn]; [reflexivity|].
  destruct (Z.eq_dec m 1) as [->|Hn1]; [reflexivity|].
  assert (Hd : 0 < m / 2) by (apply Z.div_str_pos; lia).
  rewrite !Zdigits2_log2 by lia.
  rewrite <- Z.div2_div, Z.div2_spec, Z.log2_shiftr by lia.
  pose proof (Z.log2_pos m); lia.
Qed.

(** *** Right shifts and their effect on codes *)

Lemma iter_pos_nat {A} (f : A -> A) p x :
  iter_pos f p x = Nat.iter (Pos.to_nat p) f x.
Proof.
  revert x; induction p as [p IH|p IH|]; intros x; cbn [iter_pos].
  - rewrite !IH, Pos2Nat.inj_xI.
    replace (S (2 * Pos.to_nat p)) with (Pos.to_nat p + (Pos.to_nat p + 1))%nat by lia.
    rewrite !Nat.iter_add. reflexivity.
  - rewrite !IH, Pos2Nat.inj_xO.
    replace (2 * Pos.to_nat p)%nat with (Pos.to_nat p + Pos.to_nat p)%nat by lia.
    rewrite Nat.iter_add. reflexivity.
  - reflexivity.
Qed.

Lemma shr_shrn mrs e n :
  shr mrs e n = (shrn (Z.to_nat n) mrs, e + Z.max 0 n).
Proof.
  destruct n as [|p|p]; cbn [shr Z.to_nat].
  - cbn. f_equal; lia.
  - rewrite iter_pos_nat; unfold shrn; f_equal; lia.
  - cbn. f_equal; lia.
Qed.

Lemma shr_1_spec m r s :
  0 <= m -> shr_1 (Build_shr_record m r s) = Build_shr_record (m / 2) (Z.odd m) (r || s).
Proof.
  intros H. rewrite <- Z.div2_div.
  destruct m as [|[p|p|]|p]; try lia; reflexivity.
Qed.

Lemma code_shr_1 mrs :
  0 <= shr_m mrs ->
  code (shr_1 mrs) = 2 * (code mrs / 4) + (if code mrs mod 4 =? 0 then 0 else 1).
Proof.
  destruct mrs as [m r s]; intros H; cbn [shr_m] in H.
  rewrite shr_1_spec by exact H.
  unfold code; cbn [shr_m shr_r shr_s].
  set (t := (if r then 2 else 0) + (if s then 1 else 0)).
  assert (Ht : 0 <= t < 4) by (subst t; destruct r, s; lia).
  replace (4 * m + (if r then 2 else 0) + (if s then 1 else 0)) with (t + m * 4) by (subst t; lia).
  rewrite Z.div_add, Z.mod_add by lia.
  rewrite (Z.div_small t 4), (Z.mod_small t 4) by lia.
  pose proof (Z.div2_odd m) as Hm; rewrite Z.div2_div in Hm.
  subst t; destruct (Z.odd m), r, s; cbn [orb Z.b2z Z.eqb Z.add] in *; lia.
Qed.

Lemma code_nonneg mrs : 0 <= shr_m mrs -> 0 <= code mrs.
Proof. unfold code; destruct (shr_r mrs), (shr_s mrs); lia. Qed.

Lemma shr_m_code mrs : shr_m mrs = code mrs / 4.
Proof.
  unfold code. destruct mrs as [m r s]; cbn [shr_m shr_r shr_s].
  set (t := (if r then 2 else 0) + (if s then 1 else 0)).
  assert (Ht : 0 <= t < 4) by (subst t; destruct r, s; lia).
  replace (4 * m + (if r then 2 else 0) + (if s then 1 else 0)) with (t + m * 4) by (subst t; lia).
  rewrite Z.div_add, Z.div_small; lia.
Qed.

Lemma code_shr_1_mono a b :
  0 <= shr_m a -> code a <= code b -> code (shr_1 a) <= code (shr_1 b).
Proof.
  intros Ha Hab.
  assert (Hb : 0 <= shr_m b).
  { rewrite shr_m_code. apply Z.div_pos; [|lia]. pose proof (code_nonneg a Ha); lia. }
  rewrite !code_shr_1 by assumption.
  pose proof (Z.div_mod (code a) 4) as Da.
  pose proof (Z.div_mod (code b) 4) as Db.
  pose proof (Z.mod_pos_bound (code a) 4) as Ba.
  pose proof (Z.mod_pos_bound (code b) 4) as Bb.
  destruct (Z.eqb_spec (code a mod 4) 0), (Z.eqb_spec (code b mod 4) 0); lia.
Qed.

Lemma shrn_nonneg n mrs : 0 <= shr_m mrs -> 0 <= shr_m (shrn n mrs).
Proof.
  intros H; induction n as [|n IH]; [exact H|].
  cbn; now apply shr_1_nonneg.
Qed.

Lemma shrn_m n mrs : 0 <= shr_m mrs -> shr_m (shrn n mrs) = shr_m mrs / 2 ^ Z.of_nat n.
Proof.
  intros H; induction n as [|n IH].
  - cbn; now rewrite Z.div_1_r.
  - change (shrn (S n) mrs) with (shr_1 (shrn n mrs)).
    pose proof (shrn_nonneg n mrs H) as Hn.
    destruct (shrn n mrs) as [m r s]; cbn [shr_m] in *.
    rewrite shr_1_spec by exact Hn; cbn [shr_m].
    rewrite IH, Nat2Z.inj_succ. rewrite Z.pow_succ_r by lia.
    assert (Hp : 0 < 2 ^ Z.of_nat n) by (apply Z.pow_pos_nonneg; lia).
    rewrite Z.div_div by lia.
    f_equal; lia.
Qed.

Lemma shrn_digits n mrs :
  0 <= shr_m mrs ->
  Zdigits2 (shr_m (shrn n mrs)) = Z.max 0 (Zdigits2 (shr_m mrs) - Z.of_nat n).
Proof.
  intros H; induction n as [|n IH].
  - change (shrn 0 mrs) with mrs. pose proof (Zdigits2_nonneg (shr_m mrs)); lia.
  - change (shrn (S n) mrs) with (shr_1 (shrn n mrs)).
    pose proof (shrn_nonneg n mrs H) as Hn.
    destruct (shrn n mrs) as [m r s]; cbn [shr_m] in *.
    rewrite shr_1_spec by exact Hn; cbn [shr_m].
    rewrite Zdigits2_div2, IH by exact Hn. lia.
Qed.

Lemma shrn_code_mono n a b :
  0 <= shr_m a -> code a <= code b -> code (shrn n a) <= code (shrn n b).
Proof.
  intros Ha Hab; induction n as [|n IH]; [exact Hab|].
  cbn; apply code_shr_1_mono; [now apply shrn_nonneg|exact IH].
Qed.

Lemma shrn_add n k mrs : shrn n (shrn k mrs) = shrn (n + k) mrs.
Proof. unfold shrn; now rewrite Nat.iter_add. Qed.

(** *** The three steps of rounding *)

Lemma record_of_loc_of mrs :
  shr_record_of_loc (shr_m mrs) (loc_of_shr_record mrs) = mrs.
Proof. destruct mrs as [m [] []]; reflexivity. Qed.

Lemma shr_fexp_record mrs e :
  shr_fexp prec emax (shr_m mrs) e (loc_of_shr_record mrs) =
  (shrn (Z.to_nat (target mrs e - e)) mrs, e + Z.max 0 (target mrs e - e)).
Proof.
  unfold shr_fexp; rewrite record_of_loc_of, shr_shrn; reflexivity.
Qed.

Lemma rounded_eq mrs e :
  rounded mrs e =
  finish (rne (shrn (Z.to_nat (target mrs e - e)) mrs)) (e + Z.max 0 (target mrs e - e)).
Proof.
  unfold rounded, binary_round_aux; rewrite shr_fexp_record.
  unfold finish, rne.
  destruct (shr_fexp prec emax _ _ loc_Exact) as [mrs'' e''].
  unfold pack; destruct (shr_m mrs''); reflexivity.
Qed.

Lemma rne_bounds mrs : shr_m mrs <= rne mrs <= shr_m mrs + 1.
Proof.
  unfold rne; destruct mrs as [m [] []]; cbn; try lia.
  destruct (Z.even m); lia.
Qed.

Lemma rne_mono a b : code a <= code b -> rne a <= rne b.
Proof.
  intros H.
  pose proof (rne_bounds a) as Ba; pose proof (rne_bounds b) as Bb.
  destruct (Z.eq_dec (shr_m a) (shr_m b)) as [E|N].
  - unfold rne in *; destruct a as [m ra sa], b as [m' rb sb];
      cbn [shr_m] in *; subst m'; unfold code in H; cbn [shr_m shr_r shr_s] in H.
    destruct ra, sa, rb, sb; cbn in *; try lia; destruct (Z.even m); lia.
  - assert (shr_m a < shr_m b); [|lia].
    unfold code in H; destruct (shr_r a), (shr_s a), (shr_r b), (shr_s b); lia.
Qed.

Lemma finish_spec n t :
  0 <= n <= 2 ^ 53 -> -1074 <= t -> (t = -1074 \/ 2 ^ 52 <= n) ->
  finish n t = if n <? 2 ^ 53 then pack n t else pack (2 ^ 52) (t + 1).
Proof.
  intros Hn Ht Hc; unfold finish.
  change loc_Exact with (loc_of_shr_record (Build_shr_record n false false)).
  change n with (shr_m (Build_shr_record n false false)) at 1.
  rewrite shr_fexp_record; unfold target; cbn [shr_m]; rewrite fexp_eq.
  destruct (Z.ltb_spec n (2 ^ 53)) as [Hlt|Hge].
  - assert (Hd : Zdigits2 n <= 53).
    { destruct (Z.eq_dec n 0) as [->|Hz]; [cbn; lia|].
      pose proof (Zdigits2_bounds n ltac:(lia)) as B.
      destruct (Z_le_gt_dec (Zdigits2 n) 53) as [|G]; [assumption|exfalso].
      assert (2 ^ 53 <= 2 ^ (Zdigits2 n - 1)) by (apply Z.pow_le_mono_r; lia). lia. }
    assert (Hs : Z.max (Zdigits2 n + t - 53) (-1074) - t <= 0).
    { destruct Hc as [->|Hc]; [lia|].
      rewrite (Zdigits2_unique n 53) by (cbn; lia). lia. }
    replace (Z.to_nat _) with 0%nat by lia.
    cbn [shrn Nat.iter shr_m]. f_equal; lia.
  - assert (n = 2 ^ 53) by lia; subst n.
    assert (Hd : Zdigits2 (2 ^ 53) = 54) by (vm_compute; reflexivity).
    replace (Z.max (Zdigits2 (2 ^ 53) + t - 53) (-1074) - t) with 1 by lia.
    replace (t + Z.max 0 1) with (t + 1) by lia.
    vm_compute (shr_m _). reflexivity.
Qed.

Lemma bounded_eq m e :
  bounded prec emax m e = (Z.max (Zdigits2 (Zpos m) + e - 53) (-1074) =? e) && (e <=? 971).
Proof. reflexivity. Qed.

Lemma two_53 : 2 ^ 53 = 9007199254740992. Proof. reflexivity. Qed.

Lemma two_52 : 2 ^ 52 = 4503599627370496. Proof. reflexivity. Qed.

Lemma pack_leb n1 t1 n2 t2 :
  0 <= n1 < 2 ^ 53 -> 0 <= n2 < 2 ^ 53 ->
  (t2 = -1074 \/ 2 ^ 52 <= n2) ->
  -1074 <= t1 <= t2 -> (t1 = t2 -> n1 <= n2) ->
  leb (pack n1 t1) (pack n2 t2) = true.
Proof.
  intros H1 H2 C2 Ht Hn. rewrite two_53, two_52 in *.
  unfold pack, leb, SFleb.
  destruct n1 as [|p1|p1], n2 as [|p2|p2]; try lia;
    destruct (Z.leb_spec t1 971), (Z.leb_spec t2 971); cbn [SFcompare]; try reflexivity; try lia.
  all: destruct (Z.compare_spec t1 t2) as [E|L|G]; try reflexivity; try lia.
  all: change (Pos.compare_cont Eq p1 p2) with (Pos.compare p1 p2).
  all: destruct (Pos.compare_spec p1 p2); try reflexivity; lia.
Qed.

Lemma finish_mono n1 t1 n2 t2 :
  canonical_pair n1 t1 -> canonical_pair n2 t2 ->
  t1 <= t2 -> (t1 = t2 -> n1 <= n2) ->
  leb (finish n1 t1) (finish n2 t2) = true.
Proof.
  intros (H1 & T1 & C1) (H2 & T2 & C2) Ht Hn.
  rewrite !finish_spec by assumption.
  assert (E52 : 0 <= 2 ^ 52 < 2 ^ 53) by (rewrite two_52, two_53; lia).
  destruct (Z.ltb_spec n1 (2 ^ 53)), (Z.ltb_spec n2 (2 ^ 53)); apply pack_leb; try lia.
Qed.

Lemma finish_valid n t :
  canonical_pair n t -> valid (finish n t) = true /\ has_sign false (finish n t) = true.
Proof.
  intros (H & T & C); rewrite finish_spec by assumption.
  assert (V : forall n t, 0 <= n < 2 ^ 53 -> -1074 <= t -> (t = -1074 \/ 2 ^ 52 <= n) ->
              valid (pack n t) = true /\ has_sign false (pack n t) = true).
  { clear. intros n t H T C. unfold pack.
    destruct n as [|p|p]; try lia; [now split|].
    destruct (Z.leb_spec t 971) as [L|G]; [|now split].
    split; [|reflexivity].
    unfold valid; cbn [valid_binary]; rewrite bounded_eq.
    apply andb_true_intro; split; [|lia].
    apply Z.eqb_eq.
    assert (Hd : Zdigits2 (Zpos p) <= 53).
    { pose proof (Zdigits2_bounds (Zpos p) ltac:(lia)) as B.
      destruct (Z_le_gt_dec (Zdigits2 (Zpos p)) 53) as [|G]; [assumption|exfalso].
      assert (2 ^ 53 <= 2 ^ (Zdigits2 (Zpos p) - 1)) by (apply Z.pow_le_mono_r; lia). lia. }
    destruct C as [->|C]; [lia|].
    rewrite (Zdigits2_unique (Zpos p) 53) by lia. lia. }
  assert (E52 : 0 <= 2 ^ 52 < 2 ^ 53) by (rewrite two_52, two_53; lia).
  destruct (Z.ltb_spec n (2 ^ 53)); apply V; lia.
Qed.

(** The first step of rounding: after the shift to the target exponent the
    significand has at most 53 digits, exactly 53 above the smallest
    exponent. *)
Lemma first_step_canonical mrs e :
  0 <= shr_m mrs -> e <= target mrs e ->
  canonical_pair (rne (shrn (Z.to_nat (target mrs e - e)) mrs))
                 (e + Z.max 0 (target mrs e - e)).
Proof.
  intros Hm He.
  set (k := Z.to_nat (target mrs e - e)).
  pose proof (shrn_nonneg k mrs Hm) as Hn.
  pose proof (shrn_digits k mrs Hm) as Hd.
  pose proof (rne_bounds (shrn k mrs)) as Hr.
  assert (Ht : target mrs e = Z.max (Zdigits2 (shr_m mrs) + e - 53) (-1074)) by reflexivity.
  assert (Hk : Z.of_nat k = target mrs e - e) by lia.
  assert (Hlt : shr_m (shrn k mrs) < 2 ^ 53).
  { destruct (Z.eq_dec (shr_m (shrn k mrs)) 0) as [->|Hz]; [reflexivity|].
    pose proof (Zdigits2_bounds (shr_m (shrn k mrs)) ltac:(lia)) as [_ B].
    eapply Z.lt_le_trans; [exact B|]. apply Z.pow_le_mono_r; lia. }
  repeat split; try lia.
  destruct (Z.eq_dec (target mrs e) (-1074)) as [E|N]; [left; lia|right].
  assert (Hd53 : Zdigits2 (shr_m (shrn k mrs)) = 53) by lia.
  assert (Hpos : 0 < shr_m (shrn k mrs)).
  { destruct (Z.eq_dec (shr_m (shrn k mrs)) 0) as [Z0|]; [|lia].
    rewrite Z0 in Hd53; discriminate Hd53. }
  pose proof (Zdigits2_bounds _ Hpos) as [B _]. rewrite Hd53 in B.
  change (53 - 1) with 52 in B. lia.
Qed.

Theorem rounded_valid mrs e :
  0 <= shr_m mrs -> e <= target mrs e ->
  valid (rounded mrs e) = true /\ has_sign false (rounded mrs e) = true.
Proof.
  intros Hm He; rewrite rounded_eq.
  now apply finish_valid, first_step_canonical.
Qed.

Lemma target_mono a b e :
  0 <= shr_m a -> code a <= code b -> target a e <= target b e.
Proof.
  intros Ha H; unfold target; rewrite !fexp_eq.
  assert (shr_m a <= shr_m b).
  { rewrite !shr_m_code; apply Z.div_le_mono; lia. }
  pose proof (Zdigits2_mono (shr_m a) (shr_m b) ltac:(lia)). lia.
Qed.

(** Rounding is monotone: records at one exponent, ordered by their codes,
    round to ordered numbers. *)
Theorem rounded_mono a b e :
  0 <= shr_m a -> code a <= code b ->
  e <= target a e -> e <= target b e ->
  leb (rounded a e) (rounded b e) = true.
Proof.
  intros Ha Hab Ea Eb.
  assert (Hb : 0 <= shr_m b).
  { rewrite shr_m_code. apply Z.div_pos; [|lia]. pose proof (code_nonneg a Ha); lia. }
  pose proof (target_mono a b e Ha Hab) as Ht.
  rewrite !rounded_eq.
  apply finish_mono; try (apply first_step_canonical; assumption); [lia|].
  intros E. replace (target b e) with (target a e) by lia.
  apply rne_mono, shrn_code_mono; assumption.
Qed.

(** Rounding does not depend on the exponent at which the record is
    given, as long as it is not above the target exponent. *)
Theorem rounded_shrn k mrs e :
  0 <= shr_m mrs -> e + Z.of_nat k <= target mrs e ->
  rounded (shrn k mrs) (e + Z.of_nat k) = rounded mrs e.
Proof.
  intros Hm Hk.
  assert (Ht : target (shrn k mrs) (e + Z.of_nat k) = target mrs e).
  { unfold target in *; rewrite !fexp_eq; rewrite fexp_eq in Hk.
    rewrite shrn_digits by exact Hm.
    pose proof (Zdigits2_nonneg (shr_m mrs)). lia. }
  rewrite !rounded_eq, Ht, shrn_add.
  replace (Z.to_nat (target mrs e - (e + Z.of_nat k)) + k)%nat
    with (Z.to_nat (target mrs e - e)) by lia.
  f_equal; lia.
Qed.

(** *** Exactly known significands: products *)

Lemma code_exact m : code (exact m) = 4 * m.
Proof. unfold code, exact; cbn; lia. Qed.

Lemma shrn_exact k m : 0 <= m -> shrn k (exact (m * 2 ^ Z.of_nat k)) = exact m.
Proof.
  revert m; induction k as [|k IH]; intros m Hm.
  - cbn [shrn Nat.iter Z.of_nat]. now rewrite Z.pow_0_r, Z.mul_1_r.
  - change (shrn (S k) ?x) with (shr_1 (shrn k x)).
    rewrite Nat2Z.inj_succ, Z.pow_succ_r by lia.
    replace (m * (2 * 2 ^ Z.of_nat k)) with ((m * 2) * 2 ^ Z.of_nat k) by lia.
    rewrite IH by lia. unfold exact; rewrite shr_1_spec by lia.
    rewrite Z.div_mul by lia.
    replace (m * 2) with (2 * m) by lia. rewrite Z.odd_mul. reflexivity.
Qed.

Lemma Zdigits2_mul_pow2 m k : 0 < m -> 0 <= k -> Zdigits2 (m * 2 ^ k) = Zdigits2 m + k.
Proof.
  intros Hm Hk.
  assert (0 < 2 ^ k) by (apply Z.pow_pos_nonneg; lia).
  rewrite !Zdigits2_log2 by nia.
  rewrite Z.log2_mul_pow2 by lia. lia.
Qed.

Lemma target_exact_shift m e k :
  0 < m -> 0 <= k -> target (exact (m * 2 ^ k)) (e - k) = target (exact m) e.
Proof.
  intros Hm Hk; unfold target, exact; cbn [shr_m].
  rewrite Zdigits2_mul_pow2 by assumption. f_equal; lia.
Qed.

Lemma rounded_exact_align m e k :
  0 < m -> 0 <= k -> e <= target (exact m) e ->
  rounded (exact (m * 2 ^ k)) (e - k) = rounded (exact m) e.
Proof.
  intros Hm Hk He.
  rewrite <- (Z2Nat.id k) in * by exact Hk.
  generalize dependent (Z.to_nat k); clear k; intros n Hk.
  assert (Hp : 0 < 2 ^ Z.of_nat n) by (apply Z.pow_pos_nonneg; lia).
  rewrite <- (rounded_shrn n (exact (m * 2 ^ Z.of_nat n)) (e - Z.of_nat n)).
  - rewrite shrn_exact by lia. f_equal; lia.
  - cbn [exact shr_m]; nia.
  - rewrite target_exact_shift by assumption. lia.
Qed.

(** Exact values with ordered magnitudes round to ordered numbers. *)
Theorem rounded_exact_mono m1 e1 m2 e2 e :
  0 < m1 -> 0 < m2 -> e <= e1 -> e <= e2 ->
  m1 * 2 ^ (e1 - e) <= m2 * 2 ^ (e2 - e) ->
  e1 <= target (exact m1) e1 -> e2 <= target (exact m2) e2 ->
  leb (rounded (exact m1) e1) (rounded (exact m2) e2) = true.
Proof.
  intros H1 H2 L1 L2 Hle T1 T2.
  assert (P1 : 0 < 2 ^ (e1 - e)) by (apply Z.pow_pos_nonneg; lia).
  assert (P2 : 0 < 2 ^ (e2 - e)) by (apply Z.pow_pos_nonneg; lia).
  rewrite <- (rounded_exact_align m1 e1 (e1 - e)), <- (rounded_exact_align m2 e2 (e2 - e))
    by (assumption || lia).
  replace (e1 - (e1 - e)) with e by lia.
  replace (e2 - (e2 - e)) with e by lia.
  apply rounded_mono.
  - cbn [exact shr_m]; nia.
  - rewrite !code_exact; lia.
  - pose proof (target_exact_shift m1 e1 (e1 - e) H1 ltac:(lia)) as T.
    replace (e1 - (e1 - e)) with e in T by lia. rewrite T; lia.
  - pose proof (target_exact_shift m2 e2 (e2 - e) H2 ltac:(lia)) as T.
    replace (e2 - (e2 - e)) with e in T by lia. rewrite T; lia.
Qed.

Lemma SFmul_rounded mx ex my ey :
  mul (S754_finite false mx ex) (S754_finite false my ey) =
  rounded (exact (Zpos (mx * my))) (ex + ey).
Proof. reflexivity. Qed.

(** A product with a normal number has at least 53 digits, so rounding it
    only shifts to the right. *)
Lemma product_shiftable mx ex my ey :
  Zdigits2 (Zpos my) = 53 ->
  ex + ey <= target (exact (Zpos (mx * my))) (ex + ey).
Proof.
  intros Hd; unfold target, exact; cbn [shr_m]; rewrite fexp_eq.
  assert (Zdigits2 (Zpos my) <= Zdigits2 (Zpos (mx * my))).
  { apply Zdigits2_mono. rewrite Pos2Z.inj_mul. nia. }
  lia.
Qed.

Lemma valid_finite s m e :
  valid (S754_finite s m e) = true ->
  -1074 <= e <= 971 /\ Zpos m < 2 ^ 53 /\ (e = -1074 \/ 2 ^ 52 <= Zpos m).
Proof.
  unfold valid; cbn [valid_binary]; rewrite bounded_eq.
  intros H; apply andb_prop in H as [H1 H2].
  apply Z.eqb_eq in H1; apply Z.leb_le in H2.
  pose proof (Zdigits2_bounds (Zpos m) ltac:(lia)) as [B1 B2].
  assert (Hd : Zdigits2 (Zpos m) <= 53) by lia.
  repeat split; try lia.
  - eapply Z.lt_le_trans; [exact B2|]. apply Z.pow_le_mono_r; lia.
  - destruct (Z.eq_dec e (-1074)) as [|N]; [now left|right].
    assert (E : Zdigits2 (Zpos m) = 53) by lia.
    rewrite E in B1. exact B1.
Qed.

Lemma leb_aligned mx ex my ey :
  valid (S754_finite false mx ex) = true -> valid (S754_finite false my ey) = true ->
  leb (S754_finite false mx ex) (S754_finite false my ey) = true ->
  ex <= ey /\ Zpos mx <= Zpos my * 2 ^ (ey - ex).
Proof.
  intros Vx Vy.
  apply valid_finite in Vx as (Ex & Mx & Cx), Vy as (Ey & My & Cy).
  unfold leb, SFleb; cbn [SFcompare].
  destruct (Z.compare_spec ex ey) as [E|L|G]; try discriminate.
  - subst ey. change (Pos.compare_cont Eq mx my) with (Pos.compare mx my).
    destruct (Pos.compare_spec mx my); try discriminate;
      intros _; rewrite Z.sub_diag, Z.pow_0_r; lia.
  - intros _. split; [lia|].
    assert (2 ^ 1 <= 2 ^ (ey - ex)) by (apply Z.pow_le_mono_r; lia).
    change (2 ^ 1) with 2 in *. rewrite two_52, two_53 in *. nia.
Qed.

Lemma leb_zero_zero s s' : leb (S754_zero s) (S754_zero s') = true.
Proof. reflexivity. Qed.

Lemma leb_inf x : has_sign false x = true -> leb x (S754_infinity false) = true.
Proof. destruct x as [s|[]| |[] m e]; easy. Qed.

Lemma leb_from_zero s x : has_sign false x = true -> leb (S754_zero s) x = true.
Proof. destruct x as [s'|[]| |[] m e]; easy. Qed.

Lemma ordered_refl x : valid x = true -> has_sign false x = true -> ordered x x.
Proof.
  intros V S; repeat split; try assumption.
  destruct x as [s|[]| |[] m e]; try easy.
  unfold leb, SFleb; cbn [SFcompare]. rewrite Z.compare_refl.
  change (Pos.compare_cont Eq m m) with (Pos.compare m m).
  now rewrite Pos.compare_refl.
Qed.

Lemma mul_finite_valid mx ex mc ec :
  Zdigits2 (Zpos mc) = 53 ->
  valid (mul (S754_finite false mx ex) (S754_finite false mc ec)) = true /\
  has_sign false (mul (S754_finite false mx ex) (S754_finite false mc ec)) = true.
Proof.
  intros Hd; rewrite SFmul_rounded.
  apply rounded_valid; [cbn; lia|now apply product_shiftable].
Qed.

(** [x <= y] gives [x * c <= y * c] for a positive normal [c]. *)
Theorem mul_mono_l x y c :
  normal c = true -> ordered x y -> ordered (mul x c) (mul y c).
Proof.
  destruct c as [| | |[] mc ec]; try discriminate.
  cbn [normal]; intros Hd; apply Z.eqb_eq in Hd.
  intros (Vx & Vy & Sx & Sy & L).
  destruct x as [sx|[]| |[] mx ex]; try discriminate;
    destruct y as [sy|[]| |[] my ey]; try discriminate.
  - repeat split; reflexivity.
  - repeat split; reflexivity.
  - destruct (mul_finite_valid my ey mc ec Hd) as [V S].
    repeat split; try assumption; try reflexivity.
    change (mul (S754_zero sx) (S754_finite false mc ec)) with (S754_zero (xorb sx false)).
    now apply leb_from_zero.
  - repeat split; reflexivity.
  - destruct (mul_finite_valid mx ex mc ec Hd) as [V S].
    repeat split; try assumption; try reflexivity.
    now apply leb_inf.
  - destruct (mul_finite_valid mx ex mc ec Hd) as [V1 S1].
    destruct (mul_finite_valid my ey mc ec Hd) as [V2 S2].
    repeat split; try assumption.
    destruct (leb_aligned mx ex my ey Vx Vy L) as [Le Lm].
    rewrite !SFmul_rounded.
    apply (rounded_exact_mono _ _ _ _ (ex + ec)); try lia.
    + replace (ex + ec - (ex + ec)) with 0 by lia.
      replace (ey + ec - (ex + ec)) with (ey - ex) by lia.
      rewrite !Pos2Z.inj_mul, Z.pow_0_r. nia.
    + now apply product_shiftable.
    + now apply product_shiftable.
Qed.

(** [c1 <= c2] gives [x * c1 <= x * c2] for [x >= 0] and positive normal
    [c1], [c2]. *)
Theorem mul_mono_r x c1 c2 :
  normal c1 = true -> normal c2 = true -> aligned_le c1 c2 = true ->
  has_sign false x = true -> ordered (mul x c1) (mul x c2).
Proof.
  destruct c1 as [| | |[] m1 e1]; try discriminate.
  destruct c2 as [| | |[] m2 e2]; try discriminate.
  cbn [normal aligned_le]; intros D1 D2 A Sx.
  apply Z.eqb_eq in D1, D2; apply Z.leb_le in A.
  destruct x as [sx|[]| |[] mx ex]; try discriminate.
  - repeat split; reflexivity.
  - repeat split; reflexivity.
  - destruct (mul_finite_valid mx ex m1 e1 D1) as [V1 S1].
    destruct (mul_finite_valid mx ex m2 e2 D2) as [V2 S2].
    repeat split; try assumption.
    rewrite !SFmul_rounded.
    apply (rounded_exact_mono _ _ _ _ (ex + Z.min e1 e2)); try lia.
    + replace (ex + e1 - (ex + Z.min e1 e2)) with (e1 - Z.min e1 e2) by lia.
      replace (ex + e2 - (ex + Z.min e1 e2)) with (e2 - Z.min e1 e2) by lia.
      rewrite !Pos2Z.inj_mul. nia.
    + now apply product_shiftable.
    + now apply product_shiftable.
Qed.

(** *** Integers and [Math.round] *)

Lemma pos_iter_xO p j : Zpos (Pos.iter xO p j) = Zpos p * 2 ^ Zpos j.
Proof.
  induction j as [|j IH] using Pos.peano_ind.
  - cbn. lia.
  - rewrite Pos.iter_succ, Pos2Z.inj_xO, IH, Pos2Z.inj_succ, Z.pow_succ_r by lia. lia.
Qed.

(** A canonical number is the rounding of its own significand. *)
Lemma rounded_canonical m e :
  valid (S754_finite false m e) = true ->
  rounded (exact (Zpos m)) e = S754_finite false m e /\
  target (exact (Zpos m)) e = e.
Proof.
  intros V.
  assert (T : target (exact (Zpos m)) e = e).
  { unfold valid in V; cbn [valid_binary] in V; rewrite bounded_eq in V.
    apply andb_prop in V as [V _]; apply Z.eqb_eq in V. exact V. }
  split; [|exact T].
  apply valid_finite in V as (E & M & C).
  rewrite rounded_eq, T, Z.sub_diag. cbn [Z.to_nat shrn Nat.iter Z.max].
  rewrite Z.add_0_r.
  change (rne (shrn 0 (exact (Zpos m)))) with (Zpos m).
  rewrite finish_spec by lia.
  destruct (Z.ltb_spec (Zpos m) (2 ^ 53)); [|lia].
  unfold pack. destruct (Z.leb_spec e 971); [reflexivity|lia].
Qed.

(** The number of a positive integer, as [binary_normalize] builds it, is
    the rounding of that integer. *)
Lemma binary_round_rounded p :
  binary_round prec emax false p 0 = rounded (exact (Zpos p * 2 ^ 52)) (-52).
Proof.
  unfold binary_round, shl_align.
  rewrite Z.add_0_r, Z.sub_0_r, fexp_eq.
  assert (Hd : 1 <= Zdigits2 (Zpos p)) by (cbn; lia).
  change (Z.pos (digits2_pos p)) with (Zdigits2 (Zpos p)).
  set (d := Zdigits2 (Zpos p)) in *.
  destruct (Z.max (d - 53) (-1074)) as [|j|j] eqn:E.
  - change (binary_round_aux prec emax false (Zpos p) 0 loc_Exact)
      with (rounded (exact (Zpos p)) 0).
    symmetry. apply (rounded_exact_align (Zpos p) 0 52); try lia.
    unfold target, exact; cbn [shr_m]; rewrite fexp_eq; fold d; lia.
  - change (binary_round_aux prec emax false (Zpos p) 0 loc_Exact)
      with (rounded (exact (Zpos p)) 0).
    symmetry. apply (rounded_exact_align (Zpos p) 0 52); try lia.
    unfold target, exact; cbn [shr_m]; rewrite fexp_eq; fold d; lia.
  - change (binary_round_aux prec emax false (Zpos (Pos.iter xO p j)) (Zneg j) loc_Exact)
      with (rounded (exact (Zpos (Pos.iter xO p j))) (Zneg j)).
    rewrite pos_iter_xO.
    assert (Hp : 0 < 2 ^ Zpos j) by (apply Z.pow_pos_nonneg; lia).
    assert (Hj : Zpos j <= 52) by lia.
    pose proof (rounded_exact_align (Zpos p * 2 ^ Zpos j) (Zneg j) (52 - Zpos j)) as A.
    replace (Zneg j - (52 - Zpos j)) with (-52) in A by lia.
    replace (Zpos p * 2 ^ Zpos j * 2 ^ (52 - Zpos j)) with (Zpos p * 2 ^ 52) in A.
    + symmetry; apply A; try nia.
      unfold target, exact; cbn [shr_m]; rewrite fexp_eq.
      rewrite Zdigits2_mul_pow2 by lia. fold d. lia.
    + rewrite <- Z.mul_assoc, <- Z.pow_add_r by lia. do 2 f_equal; lia.
Qed.

Lemma integer_target n : 0 < n -> -52 <= target (exact (n * 2 ^ 52)) (-52).
Proof.
  intros H; unfold target, exact; cbn [shr_m]; rewrite fexp_eq.
  rewrite Zdigits2_mul_pow2 by lia.
  assert (1 <= Zdigits2 n) by (destruct n; try lia; cbn; lia). lia.
Qed.

(** [Math.round] of a positive number with a fractional part. *)
Lemma Math_round_fraction m k :
  let n := (Zpos m + 2 ^ (Zpos k - 1)) / 2 ^ Zpos k in
  Math_round (S754_finite false m (Zneg k)) =
  if n =? 0 then S754_zero false else rounded (exact (n * 2 ^ 52)) (-52).
Proof.
  intros n; cbn [Math_round].
  rewrite Z.shiftr_div_pow2 by lia. fold n.
  assert (Hh : 0 < 2 ^ (Zpos k - 1)) by (apply Z.pow_pos_nonneg; lia).
  assert (Hn : 0 <= n) by (apply Z.div_pos; [lia|apply Z.pow_pos_nonneg; lia]).
  destruct n as [|p|p] eqn:E; [reflexivity| |lia].
  cbn [Z.eqb binary_normalize]. apply binary_round_rounded.
Qed.

Lemma round_half_up_bound m k :
  Zpos m < 2 ^ 53 -> (Zpos m + 2 ^ (Zpos k - 1)) / 2 ^ Zpos k <= 2 ^ 52.
Proof.
  intros H.
  assert (Hh : 0 < 2 ^ (Zpos k - 1)) by (apply Z.pow_pos_nonneg; lia).
  assert (Hk : 2 ^ Zpos k = 2 * 2 ^ (Zpos k - 1)).
  { rewrite <- Z.pow_succ_r by lia. f_equal; lia. }
  apply Z.lt_succ_r, Z.div_lt_upper_bound; [lia|].
  rewrite two_52, two_53 in *. nia.
Qed.

Lemma round_half_up_mono mx kx my ky :
  Zpos ky <= Zpos kx -> Zpos mx <= Zpos my * 2 ^ (Zpos kx - Zpos ky) ->
  (Zpos mx + 2 ^ (Zpos kx - 1)) / 2 ^ Zpos kx <=
  (Zpos my + 2 ^ (Zpos ky - 1)) / 2 ^ Zpos ky.
Proof.
  intros Hk Hm.
  set (j := Zpos kx - Zpos ky) in *.
  assert (Pj : 0 < 2 ^ j) by (apply Z.pow_pos_nonneg; lia).
  assert (Py : 0 < 2 ^ Zpos ky) by (apply Z.pow_pos_nonneg; lia).
  rewrite <- (Z.div_mul_cancel_r (Zpos my + _) (2 ^ Zpos ky) (2 ^ j)) by lia.
  rewrite <- Z.pow_add_r by lia.
  replace (Zpos ky + j) with (Zpos kx) by lia.
  apply Z.div_le_mono; [apply Z.pow_pos_nonneg; lia|].
  rewrite Z.mul_add_distr_r, <- Z.pow_add_r by lia.
  replace (Zpos ky - 1 + j) with (Zpos kx - 1) by lia. lia.
Qed.

Lemma Math_round_fraction_valid m k :
  valid (Math_round (S754_finite false m (Zneg k))) = true.
Proof.
  rewrite Math_round_fraction.
  assert (Hh : 0 < 2 ^ (Zpos k - 1)) by (apply Z.pow_pos_nonneg; lia).
  assert (Hn : 0 <= (Zpos m + 2 ^ (Zpos k - 1)) / 2 ^ Zpos k)
    by (apply Z.div_pos; [lia|apply Z.pow_pos_nonneg; lia]).
  destruct (Z.eqb_spec ((Zpos m + 2 ^ (Zpos k - 1)) / 2 ^ Zpos k) 0); [reflexivity|].
  apply rounded_valid; [cbn [exact shr_m]; lia|apply integer_target; lia].
Qed.

Theorem Math_round_mono x y : ordered x y -> ordered (Math_round x) (Math_round y).
Proof.
  intros (Vx & Vy & Sx & Sy & L).
  assert (Sx' := Math_round_sign false x Sx).
  assert (Sy' := Math_round_sign false y Sy).
  assert (Vx' : valid (Math_round x) = true).
  { destruct x as [s|s| |[] m [|e|k]]; try easy. apply Math_round_fraction_valid. }
  assert (Vy' : valid (Math_round y) = true).
  { destruct y as [s|s| |[] m [|e|k]]; try easy. apply Math_round_fraction_valid. }
  repeat split; try assumption.
  destruct x as [sx|[]| |[] mx ex]; try discriminate;
    destruct y as [sy|[]| |[] my ey]; try discriminate; try reflexivity.
  - now apply leb_from_zero.
  - now apply leb_inf.
  - destruct (leb_aligned mx ex my ey Vx Vy L) as [Le Lm].
    destruct ex as [|ex|kx].
    + destruct ey as [|ey|ky]; try lia; exact L.
    + destruct ey as [|ey|ky]; try lia; exact L.
    + pose proof (valid_finite _ _ _ Vx) as (Ex & Mx & Cx).
      pose proof (round_half_up_bound mx kx Mx) as Bx.
      assert (Hh : 0 < 2 ^ (Zpos kx - 1)) by (apply Z.pow_pos_nonneg; lia).
      assert (Hn : 0 <= (Zpos mx + 2 ^ (Zpos kx - 1)) / 2 ^ Zpos kx)
        by (apply Z.div_pos; [lia|apply Z.pow_pos_nonneg; lia]).
      rewrite Math_round_fraction in *.
      destruct (Z.eqb_spec ((Zpos mx + 2 ^ (Zpos kx - 1)) / 2 ^ Zpos kx) 0) as [Z0|NZ];
        [now apply leb_from_zero|].
      set (nx := (Zpos mx + 2 ^ (Zpos kx - 1)) / 2 ^ Zpos kx) in *.
      assert (Px : 0 < nx * 2 ^ 52) by (rewrite two_52; lia).
      assert (integer_y : forall e, 0 <= e ->
                valid (S754_finite false my e) = true ->
                leb (rounded (exact (nx * 2 ^ 52)) (-52)) (S754_finite false my e) = true).
      { intros e He V.
        destruct (rounded_canonical my e V) as [R T]. rewrite <- R.
        pose proof (valid_finite _ _ _ V) as (Ey & My & Cy).
        assert (Pe : 2 ^ 52 <= 2 ^ (e - -52)) by (apply Z.pow_le_mono_r; lia).
        assert (Hle : nx * 2 ^ 52 * 2 ^ (-52 - -52) <= Zpos my * 2 ^ (e - -52)).
        { replace (-52 - -52) with 0 by lia. rewrite Z.pow_0_r.
          rewrite two_52, two_53 in *. nia. }
        apply (rounded_exact_mono _ _ _ _ (-52));
          [lia|lia|lia|lia|exact Hle|apply integer_target; lia|lia]. }
      destruct ey as [|ey|ky].
      * apply integer_y; [lia|exact Vy].
      * apply integer_y; [lia|exact Vy].
      * rewrite Math_round_fraction.
        pose proof (round_half_up_mono mx kx my ky ltac:(lia)) as Hm.
        replace (Z.neg ky - Z.neg kx) with (Zpos kx - Zpos ky) in Lm by lia.
        specialize (Hm Lm). fold nx in Hm.
        set (ny := (Zpos my + 2 ^ (Zpos ky - 1)) / 2 ^ Zpos ky) in *.
        destruct (Z.eqb_spec ny 0) as [Z0|NZy]; [lia|].
        assert (Hle : nx * 2 ^ 52 * 2 ^ (-52 - -52) <= ny * 2 ^ 52 * 2 ^ (-52 - -52)).
        { rewrite two_52; lia. }
        apply (rounded_exact_mono _ _ _ _ (-52));
          [lia|rewrite two_52; lia|lia|lia|exact Hle|
           apply integer_target; lia|apply integer_target; lia].
Qed.

(** *** Quotients *)

Lemma new_location_position d r : 0 <= r < d -> new_location d r = position d r.
Proof.
  intros H; unfold new_location, position, new_location_even, new_location_odd.
  destruct (Z.even d) eqn:Ev; [reflexivity|].
  destruct (Z.eqb_spec r 0); [reflexivity|]. f_equal.
  assert (Od : Z.odd d = true) by (rewrite <- Z.negb_even, Ev; reflexivity).
  apply Z.odd_spec in Od as [j Hj].
  destruct (Z.compare_spec (2 * r + 1) d), (Z.compare_spec (2 * r) d); try reflexivity; lia.
Qed.

Lemma divrec_eq a d :
  0 < d -> divrec a d = shr_record_of_loc (a / d) (position d (a mod d)).
Proof.
  intros Hd; unfold divrec, Z.div, Z.modulo.
  pose proof (Z.mod_pos_bound a d Hd) as B; unfold Z.modulo in B.
  destruct (Z.div_eucl a d) as [q r].
  now rewrite new_location_position.
Qed.

Lemma shr_m_of_loc m l : shr_m (shr_record_of_loc m l) = m.
Proof. destruct l as [|[]]; reflexivity. Qed.

Lemma loc_of_record_of_loc m l : loc_of_shr_record (shr_record_of_loc m l) = l.
Proof. destruct l as [|[]]; reflexivity. Qed.

Lemma code_of_loc m l :
  code (shr_record_of_loc m l) =
  4 * m + match l with
          | loc_Exact => 0 | loc_Inexact Lt => 1
          | loc_Inexact Eq => 2 | loc_Inexact Gt => 3
          end.
Proof. destruct l as [|[]]; unfold code; cbn; lia. Qed.

Lemma divrec_mono a b d :
  0 < d -> a <= b -> code (divrec a d) <= code (divrec b d).
Proof.
  intros Hd Hab; rewrite !divrec_eq, !code_of_loc by exact Hd.
  pose proof (Z.div_mod a d ltac:(lia)) as Da.
  pose proof (Z.div_mod b d ltac:(lia)) as Db.
  pose proof (Z.mod_pos_bound a d Hd) as Ba.
  pose proof (Z.mod_pos_bound b d Hd) as Bb.
  pose proof (Z.div_le_mono a b d Hd Hab) as Q.
  unfold position.
  destruct (Z.eq_dec (a / d) (b / d)) as [E|N].
  - rewrite E in *.
    destruct (Z.eqb_spec (a mod d) 0), (Z.eqb_spec (b mod d) 0);
      destruct (Z.compare_spec (2 * (a mod d)) d), (Z.compare_spec (2 * (b mod d)) d); lia.
  - destruct (Z.eqb_spec (a mod d) 0), (Z.eqb_spec (b mod d) 0);
      destruct (Z.compare_spec (2 * (a mod d)) d), (Z.compare_spec (2 * (b mod d)) d); lia.
Qed.

(** Halving the scale of a quotient is one right shift of its record. *)
Lemma divrec_shr_1 a d : 0 <= a -> 0 < d -> shr_1 (divrec (2 * a) d) = divrec a d.
Proof.
  intros Ha Hd; rewrite !divrec_eq by exact Hd.
  pose proof (Z.div_mod a d ltac:(lia)) as Da.
  pose proof (Z.mod_pos_bound a d Hd) as Ba.
  pose proof (Z.div_pos a d Ha Hd) as Qa.
  remember (a / d) as q eqn:Hq0; remember (a mod d) as r eqn:Hr0; clear Hq0 Hr0.
  destruct (Z_lt_le_dec (2 * r) d) as [Hlt|Hge].
  - assert (Eq : (2 * a) / d = 2 * q) by (symmetry; apply (Z.div_unique _ _ _ (2 * r)); lia).
    assert (Er : (2 * a) mod d = 2 * r) by (symmetry; apply (Z.mod_unique _ _ (2 * q)); lia).
    rewrite Eq, Er. unfold position.
    destruct (Z.eqb_spec r 0) as [R0|RN].
    + rewrite R0, Z.mul_0_r; cbn [Z.eqb shr_record_of_loc]. rewrite shr_1_spec by lia.
      rewrite Z.mul_comm, Z.div_mul, Z.mul_comm, Z.odd_mul by lia. reflexivity.
    + destruct (Z.eqb_spec (2 * r) 0); [lia|].
      destruct (Z.compare_spec (2 * r) d) as [|_|]; try lia.
      destruct (2 * (2 * r) ?= d); cbn [shr_record_of_loc]; rewrite shr_1_spec by lia;
        rewrite Z.mul_comm, Z.div_mul, Z.mul_comm, Z.odd_mul by lia; reflexivity.
  - assert (Eq : (2 * a) / d = 2 * q + 1)
      by (symmetry; apply (Z.div_unique _ _ _ (2 * r - d)); lia).
    assert (Er : (2 * a) mod d = 2 * r - d)
      by (symmetry; apply (Z.mod_unique _ _ (2 * q + 1)); lia).
    rewrite Eq, Er. unfold position.
    assert (Hq : (2 * q + 1) / 2 = q).
    { symmetry; apply (Z.div_unique _ _ _ 1); lia. }
    assert (Ho : Z.odd (2 * q + 1) = true).
    { rewrite Z.odd_add, Z.odd_mul; reflexivity. }
    destruct (Z.eqb_spec r 0) as [R0|RN]; [lia|].
    destruct (Z.compare_spec (2 * r) d) as [E| |G]; try lia.
    + destruct (Z.eqb_spec (2 * r - d) 0); [|lia].
      cbn [shr_record_of_loc]; rewrite shr_1_spec, Hq, Ho by lia; reflexivity.
    + destruct (Z.eqb_spec (2 * r - d) 0); [lia|].
      destruct (2 * (2 * r - d) ?= d); cbn [shr_record_of_loc];
        rewrite shr_1_spec, Hq, Ho by lia; reflexivity.
Qed.

Lemma divrec_shrn k a d :
  0 <= a -> 0 < d -> shrn k (divrec (a * 2 ^ Z.of_nat k) d) = divrec a d.
Proof.
  intros Ha Hd; revert a Ha; induction k as [|k IH]; intros a Ha.
  - cbn [Z.of_nat]; rewrite Z.pow_0_r, Z.mul_1_r; reflexivity.
  - rewrite Nat2Z.inj_succ, Z.pow_succ_r by lia.
    change (shrn (S k) ?x) with (shr_1 (shrn k x)).
    replace (a * (2 * 2 ^ Z.of_nat k)) with ((2 * a) * 2 ^ Z.of_nat k) by lia.
    rewrite IH by lia. now apply divrec_shr_1.
Qed.

Lemma divrec_nonneg a d : 0 <= a -> 0 < d -> 0 <= shr_m (divrec a d).
Proof.
  intros Ha Hd; rewrite divrec_eq, shr_m_of_loc by exact Hd. now apply Z.div_pos.
Qed.

Lemma Zdigits2_pow2 j : 0 <= j -> Zdigits2 (2 ^ j) = j + 1.
Proof.
  intros Hj. assert (0 < 2 ^ j) by (apply Z.pow_pos_nonneg; lia).
  rewrite Zdigits2_log2, Z.log2_pow2 by lia. reflexivity.
Qed.

(** The quotient of two significands has at least the number of digits
    their sizes predict. *)
Lemma quotient_digits mx md a :
  0 <= a ->
  Zdigits2 (Zpos mx) - Zdigits2 (Zpos md) + a <= Zdigits2 (Zpos mx * 2 ^ a / Zpos md).
Proof.
  intros Ha.
  set (dx := Zdigits2 (Zpos mx)); set (dd := Zdigits2 (Zpos md)).
  pose proof (Zdigits2_bounds (Zpos mx) ltac:(lia)) as [Bx _]; fold dx in Bx.
  pose proof (Zdigits2_bounds (Zpos md) ltac:(lia)) as [_ Bd]; fold dd in Bd.
  assert (Hdx : 1 <= dx) by (subst dx; cbn; lia).
  assert (Hdd : 1 <= dd) by (subst dd; cbn; lia).
  pose proof (Zdigits2_nonneg (Zpos mx * 2 ^ a / Zpos md)) as N.
  destruct (Z_le_gt_dec (dx - dd + a) 0) as [|G]; [lia|].
  set (j := dx - dd + a - 1).
  assert (Pa : 0 < 2 ^ a) by (apply Z.pow_pos_nonneg; lia).
  assert (Pj : 0 < 2 ^ j) by (apply Z.pow_pos_nonneg; lia).
  assert (Hq : 2 ^ j <= Zpos mx * 2 ^ a / Zpos md).
  { apply Z.div_le_lower_bound; [lia|].
    assert (E : 2 ^ j * 2 ^ dd = 2 ^ (dx - 1) * 2 ^ a).
    { rewrite <- !Z.pow_add_r by lia. f_equal; lia. }
    nia. }
  pose proof (Zdigits2_mono (2 ^ j) _ (conj (Z.lt_le_incl _ _ Pj) Hq)) as M.
  rewrite Zdigits2_pow2 in M by lia. lia.
Qed.

Lemma SFdiv_rounded mx ex md ed :
  let e' := Z.min (fexp prec emax (Zdigits2 (Zpos mx) + ex - (Zdigits2 (Zpos md) + ed)))
                  (ex - ed) in
  div (S754_finite false mx ex) (S754_finite false md ed) =
  rounded (divrec (Zpos mx * 2 ^ (ex - ed - e')) (Zpos md)) e'.
Proof.
  intros e'; unfold div, SFdiv, SFdiv_core_binary. fold e'.
  assert (Hs : 0 <= ex - ed - e') by lia.
  set (m' := match ex - ed - e' with Z0 => _ | Zpos _ => _ | Zneg _ => _ end).
  assert (Hm : m' = Zpos mx * 2 ^ (ex - ed - e')).
  { subst m'. destruct (ex - ed - e') as [|p|p] eqn:E; [cbn; lia| |lia].
    now rewrite Z.shiftl_mul_pow2 by lia. }
  rewrite Hm. unfold divrec, rounded.
  destruct (Z.div_eucl _ _) as [q r].
  now rewrite shr_m_of_loc, loc_of_record_of_loc.
Qed.

(** The division can be carried out at any finer scale. *)
Lemma div_align mx ex md ed E :
  let e' := Z.min (fexp prec emax (Zdigits2 (Zpos mx) + ex - (Zdigits2 (Zpos md) + ed)))
                  (ex - ed) in
  E <= e' ->
  e' <= target (divrec (Zpos mx * 2 ^ (ex - ed - E)) (Zpos md)) E /\
  div (S754_finite false mx ex) (S754_finite false md ed) =
  rounded (divrec (Zpos mx * 2 ^ (ex - ed - E)) (Zpos md)) E.
Proof.
  intros e' HE.
  assert (T : e' <= target (divrec (Zpos mx * 2 ^ (ex - ed - E)) (Zpos md)) E).
  { unfold target. rewrite divrec_eq, shr_m_of_loc by lia.
    pose proof (quotient_digits mx md (ex - ed - E) ltac:(lia)) as Q.
    subst e'; rewrite !fexp_eq in *. lia. }
  split; [exact T|].
  rewrite SFdiv_rounded; fold e'.
  assert (Pa : 0 < 2 ^ (ex - ed - E)) by (apply Z.pow_pos_nonneg; lia).
  rewrite <- (rounded_shrn (Z.to_nat (e' - E))
                (divrec (Zpos mx * 2 ^ (ex - ed - E)) (Zpos md)) E).
  - rewrite Z2Nat.id by lia.
    replace (E + (e' - E)) with e' by lia. f_equal.
    replace (ex - ed - E) with ((ex - ed - e') + Z.of_nat (Z.to_nat (e' - E))) by lia.
    rewrite Z.pow_add_r, Z.mul_assoc by lia.
    symmetry; apply divrec_shrn; [|lia].
    assert (0 < 2 ^ (ex - ed - e')) by (apply Z.pow_pos_nonneg; lia). nia.
  - apply divrec_nonneg; nia.
  - rewrite Z2Nat.id by lia. lia.
Qed.

(** [x <= y] gives [x / c <= y / c] for a positive finite [c]. *)
Theorem div_mono x y mc ec :
  ordered x y ->
  leb (div x (S754_finite false mc ec)) (div y (S754_finite false mc ec)) = true.
Proof.
  intros (Vx & Vy & Sx & Sy & L).
  pose proof (SFdiv_sign prec emax false x mc ec Sx) as Dx.
  pose proof (SFdiv_sign prec emax false y mc ec Sy) as Dy.
  fold (div x (S754_finite false mc ec)) in Dx.
  fold (div y (S754_finite false mc ec)) in Dy.
  destruct x as [sx|[]| |[] mx ex]; try discriminate;
    destruct y as [sy|[]| |[] my ey]; try discriminate; try reflexivity.
  - now apply leb_from_zero.
  - now apply leb_inf.
  - destruct (leb_aligned mx ex my ey Vx Vy L) as [Le Lm].
    set (e1 := Z.min (fexp prec emax (Zdigits2 (Zpos mx) + ex - (Zdigits2 (Zpos mc) + ec)))
                     (ex - ec)).
    set (e2 := Z.min (fexp prec emax (Zdigits2 (Zpos my) + ey - (Zdigits2 (Zpos mc) + ec)))
                     (ey - ec)).
    set (E := Z.min e1 e2).
    destruct (div_align mx ex mc ec E ltac:(fold e1; lia)) as [T1 ->].
    destruct (div_align my ey mc ec E ltac:(fold e2; lia)) as [T2 ->].
    fold e1 in T1; fold e2 in T2.
    assert (P1 : 0 < 2 ^ (ex - ec - E)) by (apply Z.pow_pos_nonneg; lia).
    apply rounded_mono; try lia.
    + apply divrec_nonneg; nia.
    + apply divrec_mono; [lia|].
      replace (ey - ec - E) with ((ey - ex) + (ex - ec - E)) by lia.
      rewrite Z.pow_add_r, Z.mul_assoc by lia. nia.
Qed.

End RoundingFacts.

(** ** Properties of the calculator *)

Module ImpactFacts.
Import JS Impact Rounding SignFacts RoundingFacts.
Local Open Scope js_scope.

(** Case analysis on the comparisons of [category] with the keys of the
    table. *)
Ltac case_category category :=
  repeat match goal with
  | |- context [String.eqb category ?k] => destruct (String.eqb category k)
  end.

(** The literals of the program denote the expected binary64 numbers. *)
Example literal_0_4 : dec 4 1 = S754_finite false 7205759403792794 (-54).
Proof. vm_compute; reflexivity. Qed.

Example literal_0_1 : dec 1 1 = S754_finite false 7205759403792794 (-56).
Proof. vm_compute; reflexivity. Qed.

Example literal_100 : of_int 100 = S754_finite false 7036874417766400 (-46).
Proof. vm_compute; reflexivity. Qed.

(** [Math.round] sends a tie towards +Infinity and keeps the sign of a
    zero result: 2.5 gives 3, -2.5 gives -2, -0.5 gives -0 and the largest
    number below 0.5 gives 0. *)
Example Math_round_ties :
  Math_round (dec 25 1) = of_int 3 /\
  Math_round (dec (-25) 1) = of_int (-2) /\
  Math_round (dec (-5) 1) = S754_zero true /\
  Math_round (S754_finite false 9007199254740991 (-54)) = zero.
Proof. repeat split; vm_compute; reflexivity. Qed.

Lemma assoc_not_key (category : string) :
  ~ In category categories -> assoc category impactMultipliers_props = None.
Proof.
  unfold categories; cbn [map fst impactMultipliers_props In assoc].
  intros H.
  repeat match goal with
  | |- context [String.eqb category ?k] =>
      destruct (String.eqb_spec category k) as [->|_]; [exfalso; apply H; tauto|]
  end.
  reflexivity.
Qed.

Lemma multiplier_not_key (category : string) :
  ~ In category categories -> multiplier category = (dec 5 1, dec 1 1).
Proof.
  unfold categories, multiplier; cbn [map fst impactMultipliers_props In].
  intros H.
  repeat match goal with
  | |- context [String.eqb category ?k] =>
      destruct (String.eqb_spec category k) as [->|_]; [exfalso; apply H; tauto|]
  end.
  reflexivity.
Qed.

Lemma In_categories_dec (category : string) :
  {In category categories} + {~ In category categories}.
Proof. apply in_dec, string_dec. Qed.

(** The calculator never throws, and its result is [impact_of] the
    resolved multiplier. *)
Lemma calculateImpact_resolved (category : string) (value : Number) (unit : string) :
  calculateImpact category value unit = Normal (impact_of value (multiplier category)).
Proof.
  destruct (In_categories_dec category) as [Hin|Hout].
  - unfold categories in Hin; cbn [map fst impactMultipliers_props In] in Hin.
    destruct Hin as [<-|[<-|[<-|[]]]]; reflexivity.
  - rewrite (multiplier_not_key _ Hout).
    unfold calculateImpact, impactMultipliers, get at 1 2.
    rewrite (assoc_not_key _ Hout).
    unfold inherited.
    destruct (existsb (String.eqb category) Object_prototype_names); reflexivity.
Qed.

(** C1: for every category of the multiplier table (transport, energy,
    waste) and every number [value], the calculator returns
    [co2_saved = round2 (value * f_co2)] and
    [water_conserved = round2 (value * f_water)], where [f_co2] and
    [f_water] are the factors of the first declared subtype of the
    category: biking, solar and recycling. *)
Theorem C1_known_category_uses_first_subtype :
  categories = ["transport"; "energy"; "waste"] /\
  (forall category, In category categories ->
     exists subtype m f_co2 f_water,
       firstSubtypeOf category = Some (subtype, m) /\
       In (category, subtype)
          [("transport", "biking"); ("energy", "solar"); ("waste", "recycling")] /\
       factor "co2" m = Some f_co2 /\
       factor "water" m = Some f_water /\
       forall value unit,
         calculateImpact category value unit =
         Normal {| co2_saved := round2 (value * f_co2);
                   water_conserved := round2 (value * f_water) |}).
Proof.
  split; [reflexivity|].
  intros category Hin.
  unfold categories in Hin; cbn [map fst impactMultipliers_props In] in Hin.
  destruct Hin as [<-|[<-|[<-|[]]]];
    do 4 eexists; (split; [reflexivity|]);
    (split; [cbn [In]; tauto|]);
    (split; [reflexivity|]); (split; [reflexivity|]);
    intros value unit; reflexivity.
Qed.

Lemma C1_witness :
  In "energy" categories /\
  exists subtype m f_co2 f_water,
    firstSubtypeOf "energy" = Some (subtype, m) /\
    In ("energy", subtype)
       [("transport", "biking"); ("energy", "solar"); ("waste", "recycling")] /\
    factor "co2" m = Some f_co2 /\
    factor "water" m = Some f_water /\
    forall value unit,
      calculateImpact "energy" value unit =
      Normal {| co2_saved := round2 (value * f_co2);
                water_conserved := round2 (value * f_water) |}.
Proof.
  assert (H : In "energy" categories) by (cbn; tauto).
  split; [exact H|].
  exact (proj2 C1_known_category_uses_first_subtype "energy" H).
Defined.

(** C2: for every category string that is not a key of the multiplier
    table and every number [value], the calculator returns exactly
    [{ co2_saved: round2 (value * 0.5), water_conserved: round2 (value * 0.1) }]
    and raises no error. *)
Theorem C2_unknown_category_uses_default (category : string) (value : Number) (unit : string) :
  ~ In category categories ->
  calculateImpact category value unit =
  Normal {| co2_saved := round2 (value * dec 5 1);
            water_conserved := round2 (value * dec 1 1) |}.
Proof.
  intros Hout.
  rewrite calculateImpact_resolved, (multiplier_not_key _ Hout).
  reflexivity.
Qed.

Lemma C2_witness :
  ~ In "diet" categories /\
  calculateImpact "diet" (dec 21 1) "kg" =
  Normal {| co2_saved := round2 (dec 21 1 * dec 5 1);
            water_conserved := round2 (dec 21 1 * dec 1 1) |}.
Proof.
  assert (H : ~ In "diet" categories)
    by (cbn; intros [H|[H|[H|[]]]]; discriminate H).
  split; [exact H|].
  exact (C2_unknown_category_uses_default "diet" (dec 21 1) "kg" H).
Defined.

(** C3: the three worked examples of the specification hold exactly, for
    any unit: [calculateImpact('transport', 5.2, u)] is
    [{ co2_saved: 2.08, water_conserved: 0.52 }],
    [calculateImpact('energy', 3.5, u)] is
    [{ co2_saved: 8.75, water_conserved: 1.75 }] and
    [calculateImpact('waste', 2.1, u)] is
    [{ co2_saved: 3.78, water_conserved: 0.63 }]. *)
Theorem C3_worked_examples (u : string) :
  calculateImpact "transport" (dec 52 1) u =
    Normal {| co2_saved := dec 208 2; water_conserved := dec 52 2 |} /\
  calculateImpact "energy" (dec 35 1) u =
    Normal {| co2_saved := dec 875 2; water_conserved := dec 175 2 |} /\
  calculateImpact "waste" (dec 21 1) u =
    Normal {| co2_saved := dec 378 2; water_conserved := dec 63 2 |}.
Proof. repeat split; vm_compute; reflexivity. Qed.

(** C4: for every category string, known or not, and every unit,
    [calculateImpact(category, 0, unit)] is
    [{ co2_saved: 0, water_conserved: 0 }]. *)
Theorem C4_zero_value (category unit : string) :
  calculateImpact category zero unit =
  Normal {| co2_saved := zero; water_conserved := zero |}.
Proof.
  rewrite calculateImpact_resolved.
  unfold multiplier.
  case_category category; vm_compute; reflexivity.
Qed.

Lemma round2_sign s x : has_sign s x = true -> has_sign s (round2 x) = true.
Proof.
  intros H; unfold round2, mul, div.
  destruct hundred_finite as (m & e & ->).
  now apply SFdiv_sign, Math_round_sign, SFmul_sign.
Qed.

(** Every resolved factor is a positive finite number. *)
Lemma multiplier_positive (category : string) :
  exists m1 e1 m2 e2,
    multiplier category = (S754_finite false m1 e1, S754_finite false m2 e2).
Proof.
  unfold multiplier.
  case_category category; vm_compute; do 4 eexists; reflexivity.
Qed.

Lemma impact_sign s (category : string) (value : Number) :
  has_sign s value = true ->
  has_sign s (co2_saved (impact_of value (multiplier category))) = true /\
  has_sign s (water_conserved (impact_of value (multiplier category))) = true.
Proof.
  intros H.
  destruct (multiplier_positive category) as (m1 & e1 & m2 & e2 & ->).
  cbn [impact_of co2_saved water_conserved fst snd]; unfold mul.
  split; apply round2_sign, SFmul_sign, H.
Qed.

(** C5: for every category string and every [value >= 0], both fields of
    the result are non-negative. *)
Theorem C5_nonnegative_result (category : string) (value : Number) (unit : string) :
  (zero <= value)%js = true ->
  exists r : ImpactResult,
    calculateImpact category value unit = Normal r /\
    (zero <= co2_saved r)%js = true /\
    (zero <= water_conserved r)%js = true.
Proof.
  rewrite leb_zero_l; intros H.
  rewrite calculateImpact_resolved.
  eexists; split; [reflexivity|].
  rewrite !leb_zero_l; now apply impact_sign.
Qed.

Lemma C5_witness :
  (zero <= dec 52 1)%js = true /\
  exists r : ImpactResult,
    calculateImpact "transport" (dec 52 1) "miles" = Normal r /\
    (zero <= co2_saved r)%js = true /\
    (zero <= water_conserved r)%js = true.
Proof.
  assert (H : (zero <= dec 52 1)%js = true) by (vm_compute; reflexivity).
  split; [exact H|].
  exact (C5_nonnegative_result "transport" (dec 52 1) "miles" H).
Defined.

(** C8, as the specification states it, fails: a small negative value
    gives a result that is not negative.  At [value = -0.001] with an
    unknown category both products round to the zero [-0], and [-0 < 0]
    is false. *)
Lemma C8_counterexample :
  (dec (-1) 3 < zero)%js = true /\
  calculateImpact "diet" (dec (-1) 3) "kg" =
    Normal {| co2_saved := S754_zero true; water_conserved := S754_zero true |} /\
  (S754_zero true < zero)%js = false.
Proof. repeat split; vm_compute; reflexivity. Qed.

(** C8, amended: for every category string and every [value < 0] the
    calculator does not reject the input; it returns the result of the
    same formula, [round2 (value * factor)] for each field with the
    resolved factors, and both fields are [<= 0]: negative, or a zero
    when the product rounds to zero at two decimals. *)
Theorem C8_negative_value_propagates (category : string) (value : Number) (unit : string) :
  (value < zero)%js = true ->
  calculateImpact category value unit =
    Normal {| co2_saved := round2 (value * fst (multiplier category));
              water_conserved := round2 (value * snd (multiplier category)) |} /\
  (round2 (value * fst (multiplier category)) <= zero)%js = true /\
  (round2 (value * snd (multiplier category)) <= zero)%js = true.
Proof.
  intros H; apply ltb_zero_has_sign in H.
  split; [apply calculateImpact_resolved|].
  rewrite !leb_zero_r; exact (impact_sign true category value H).
Qed.

Lemma C8_witness :
  (dec (-3) 0 < zero)%js = true /\
  calculateImpact "diet" (dec (-3) 0) "kg" =
    Normal {| co2_saved := round2 (dec (-3) 0 * fst (multiplier "diet"));
              water_conserved := round2 (dec (-3) 0 * snd (multiplier "diet")) |} /\
  (round2 (dec (-3) 0 * fst (multiplier "diet")) <= zero)%js = true /\
  (round2 (dec (-3) 0 * snd (multiplier "diet")) <= zero)%js = true.
Proof.
  assert (H : (dec (-3) 0 < zero)%js = true) by (vm_compute; reflexivity).
  split; [exact H|].
  exact (C8_negative_value_propagates "diet" (dec (-3) 0) "kg" H).
Defined.

Lemma hundred_normal : normal (of_int 100) = true.
Proof. vm_compute; reflexivity. Qed.

(** Rounding to two decimals preserves the order of non-negative numbers. *)
Lemma round2_mono x y : ordered x y -> (round2 x <= round2 y)%js = true.
Proof.
  intros H; unfold round2.
  pose proof hundred_normal as N.
  destruct (of_int 100) as [| | |[] m e] eqn:E; try discriminate N.
  apply div_mono, Math_round_mono, mul_mono_l; assumption.
Qed.

(** In every resolved multiplier both factors are positive normal numbers
    and the water factor is at most the CO2 factor. *)
Lemma multiplier_ordered (category : string) :
  normal (fst (multiplier category)) = true /\
  normal (snd (multiplier category)) = true /\
  aligned_le (snd (multiplier category)) (fst (multiplier category)) = true.
Proof.
  unfold multiplier.
  case_category category; vm_compute; repeat split; reflexivity.
Qed.

(** C9: for every category string and every [value >= 0] the result
    satisfies [water_conserved <= co2_saved], the water factor of every
    resolved multiplier being at most its CO2 factor. *)
Theorem C9_water_at_most_co2 (category : string) (value : Number) (unit : string) :
  (zero <= value)%js = true ->
  exists r : ImpactResult,
    calculateImpact category value unit = Normal r /\
    (water_conserved r <= co2_saved r)%js = true.
Proof.
  rewrite leb_zero_l; intros H.
  rewrite calculateImpact_resolved.
  eexists; split; [reflexivity|].
  destruct (multiplier_ordered category) as (Nc & Nw & A).
  cbn [impact_of co2_saved water_conserved].
  now apply round2_mono, mul_mono_r.
Qed.

Lemma C9_witness :
  (zero <= dec 21 1)%js = true /\
  exists r : ImpactResult,
    calculateImpact "waste" (dec 21 1) "kg" = Normal r /\
    (water_conserved r <= co2_saved r)%js = true.
Proof.
  assert (H : (zero <= dec 21 1)%js = true) by (vm_compute; reflexivity).
  split; [exact H|].
  exact (C9_water_at_most_co2 "waste" (dec 21 1) "kg" H).
Defined.

(** C6: the unit argument has no influence on the result. *)
Theorem C6_unit_is_ignored (category : string) (value : Number) (u1 u2 : string) :
  calculateImpact category value u1 = calculateImpact category value u2.
Proof. now rewrite !calculateImpact_resolved. Qed.

(** C7: the calculator is total: for every category string, every number
    and every unit string it raises no error and returns an impact
    result. *)
Theorem C7_total (category : string) (value : Number) (unit : string) :
  exists r : ImpactResult,
    calculateImpact category value unit = Normal r /\
    forall e, calculateImpact category value unit <> Throw e.
Proof.
  rewrite calculateImpact_resolved.
  eexists; split; [reflexivity|discriminate].
Qed.

End ImpactFacts.

(** ** Properties of the activity-creation endpoint *)

Module ServerFacts.
Import JS Server.

Lemma create_activity_calls (body : ActivityBody) c v u :
  In (CalculateImpact c v u) (create_activity body) ->
  v = value body /\ truthy_field v = true.
Proof.
  unfold create_activity.
  destruct (_ || _ || _) eqn:E.
  - intros [H|[]]; discriminate H.
  - intros [H|[H|[]]]; [|discriminate H].
    injection H as _ <- _.
    rewrite !orb_false_iff in E; destruct E as [[_ E] _].
    now apply negb_false_iff in E.
Qed.

(** C10: [POST /api/activities] rejects a request whose body has
    [value = 0] with status 400 and error code MISSING_REQUIRED_FIELDS,
    because its presence check takes the number 0 for a missing field; so
    the calculator is never called with [value = 0] through this
    endpoint, whatever the request. *)
Theorem C10_zero_value_is_rejected (body : ActivityBody) (s : bool) :
  value body = Some (JNum (S754_zero s)) ->
  create_activity body = [Respond 400 (Some "MISSING_REQUIRED_FIELDS")] /\
  post_api_activities Authenticated body =
    [Respond 400 (Some "MISSING_REQUIRED_FIELDS")] /\
  forall a b c v u s',
    In (CalculateImpact c v u) (post_api_activities a b) ->
    v <> Some (JNum (S754_zero s')).
Proof.
  intros Hv.
  assert (E : create_activity body = [Respond 400 (Some "MISSING_REQUIRED_FIELDS")]).
  { unfold create_activity; rewrite Hv; cbn.
    now destruct (truthy_field (category body)). }
  repeat split; [exact E|exact E|].
  intros a b c v u s' Hin ->.
  destruct a; cbn in Hin;
    try (destruct Hin as [Hin|[]]; discriminate Hin).
  apply create_activity_calls in Hin as [_ Ht]; discriminate Ht.
Qed.

Lemma C10_witness :
  value {| category := Some (JStr "transport"); value := Some (JNum zero);
           unit := Some (JStr "miles"); timestamp := None; notes := None |}
    = Some (JNum (S754_zero false)) /\
  create_activity
    {| category := Some (JStr "transport"); value := Some (JNum zero);
       unit := Some (JStr "miles"); timestamp := None; notes := None |}
    = [Respond 400 (Some "MISSING_REQUIRED_FIELDS")] /\
  post_api_activities Authenticated
    {| category := Some (JStr "transport"); value := Some (JNum zero);
       unit := Some (JStr "miles"); timestamp := None; notes := None |}
    = [Respond 400 (Some "MISSING_REQUIRED_FIELDS")].
Proof.
  assert (H : value {| category := Some (JStr "transport"); value := Some (JNum zero);
                       unit := Some (JStr "miles"); timestamp := None; notes := None |}
              = Some (JNum (S754_zero false))) by reflexivity.
  split; [exact H|].
  destruct (C10_zero_value_is_rejected _ false H) as (H1 & H2 & _).
  split; [exact H1|exact H2].
Defined.

End ServerFacts.


(** ** Properties of the other endpoints *)

Module EndpointFacts.
Import JS JSLib Server Impact Endpoints ImpactFacts.

(** *** Splitting the Authorization header *)

Lemma split_on_cons sep s : exists w ws, split_on sep s = w :: ws.
Proof.
  induction s as [|c s IH]; cbn; [eauto|].
  destruct (Ascii.eqb c sep); [eauto|].
  destruct IH as (w & ws & ->); eauto.
Qed.

Lemma split_on_word sep a :
  contains sep a = false -> split_on sep a = [a].
Proof.
  induction a as [|c a IH]; cbn; [reflexivity|].
  destruct (Ascii.eqb c sep); cbn; [discriminate|].
  intros H; now rewrite IH.
Qed.

Lemma split_on_app sep a b :
  contains sep a = false ->
  split_on sep (a ++ String sep b) = a :: split_on sep b.
Proof.
  induction a as [|c a IH]; cbn.
  - intros _; now rewrite Ascii.eqb_refl.
  - destruct (Ascii.eqb c sep); cbn; [discriminate|].
    intros H; now rewrite IH.
Qed.

Lemma header_token_nonempty h :
  h <> EmptyString -> header_token (Some h) = nth_error (split_on " " h) 1.
Proof. destruct h; [congruence|reflexivity]. Qed.

Lemma app_sep_nonempty a b : (a ++ String " " b)%string <> EmptyString.
Proof. destruct a; discriminate. Qed.

Section TokenFacts.
Context {UserId User : Type}.
Variable verify : string -> option UserId.
Variable find_user : UserId -> option (list User).

(** X6: the middleware takes the second space-separated word of the
    Authorization header as the token and never looks at the first: any
    scheme word gives the same outcome as "Bearer", and what follows a
    further space is ignored. *)
Theorem token_is_second_word (scheme token rest : string) :
  contains " " scheme = false -> contains " " token = false ->
  header_token (Some (scheme ++ " " ++ token)) = Some token /\
  header_token (Some (scheme ++ " " ++ token ++ " " ++ rest)) = Some token /\
  token_check verify find_user (Some (scheme ++ " " ++ token)) =
  token_check verify find_user (Some ("Bearer " ++ token)) /\
  token_check verify find_user (Some (scheme ++ " " ++ token ++ " " ++ rest)) =
  token_check verify find_user (Some ("Bearer " ++ token)).
Proof.
  intros Hs Ht.
  assert (E1 : header_token (Some (scheme ++ " " ++ token)) = Some token).
  { rewrite header_token_nonempty by apply app_sep_nonempty.
    change (scheme ++ " " ++ token)%string with (scheme ++ String " " token)%string.
    rewrite split_on_app, split_on_word by assumption. reflexivity. }
  assert (E2 : header_token (Some (scheme ++ " " ++ token ++ " " ++ rest)) = Some token).
  { rewrite header_token_nonempty by apply app_sep_nonempty.
    change (scheme ++ " " ++ token ++ " " ++ rest)%string
      with (scheme ++ String " " (token ++ String " " rest))%string.
    rewrite !split_on_app by assumption. reflexivity. }
  assert (E3 : header_token (Some ("Bearer " ++ token)) = Some token).
  { change ("Bearer " ++ token)%string with ("Bearer" ++ String " " token)%string.
    rewrite header_token_nonempty by apply app_sep_nonempty.
    rewrite split_on_app, split_on_word by (assumption || reflexivity). reflexivity. }
  unfold token_check; rewrite E1, E2, E3. repeat split.
Qed.

(** X7: a request without Authorization header, with an empty one, with a
    header of a single word, or with a header whose first space is the last
    character or is followed by another space, is answered as a missing
    token (401 AUTH_TOKEN_MISSING), whatever the verifier and the user
    table would say. *)
Theorem token_missing_cases (word rest : string) :
  contains " " word = false ->
  token_check verify find_user None = TokenMissing /\
  token_check verify find_user (Some EmptyString) = TokenMissing /\
  token_check verify find_user (Some word) = TokenMissing /\
  token_check verify find_user (Some (word ++ " ")) = TokenMissing /\
  token_check verify find_user (Some (word ++ "  " ++ rest)) = TokenMissing /\
  authenticateToken (token_check verify find_user (Some word)) [Respond 200 None]
    = [Respond 401 (Some "AUTH_TOKEN_MISSING")].
Proof.
  intros Hw.
  assert (E3 : token_check verify find_user (Some word) = TokenMissing).
  { unfold token_check. destruct word as [|c w]; [reflexivity|].
    rewrite header_token_nonempty by discriminate.
    now rewrite split_on_word. }
  repeat split; try reflexivity; try exact E3.
  - unfold token_check.
    rewrite header_token_nonempty by apply app_sep_nonempty.
    change (word ++ " ")%string with (word ++ String " " EmptyString)%string.
    now rewrite split_on_app.
  - unfold token_check.
    rewrite header_token_nonempty by apply app_sep_nonempty.
    change (word ++ "  " ++ rest)%string
      with (word ++ String " " (EmptyString ++ String " " rest))%string.
    rewrite !split_on_app by (assumption || reflexivity). reflexivity.
  - now rewrite E3.
Qed.

End TokenFacts.

Lemma token_is_second_word_witness :
  header_token (Some ("Token" ++ " " ++ "abc")) = Some "abc" /\
  header_token (Some ("Token" ++ " " ++ "abc" ++ " " ++ "x y")) = Some "abc" /\
  token_check (fun _ : string => Some 1) (fun _ : Z => Some [tt])
    (Some ("Token" ++ " " ++ "abc")) =
  token_check (fun _ : string => Some 1) (fun _ : Z => Some [tt])
    (Some ("Bearer " ++ "abc")).
Proof.
  destruct (token_is_second_word (fun _ : string => Some 1) (fun _ : Z => Some [tt])
              "Token" "abc" "x y" eq_refl eq_refl) as (H1 & H2 & H3 & _).
  split; [exact H1|split; [exact H2|exact H3]].
Defined.

Lemma token_missing_cases_witness :
  token_check (fun _ : string => Some 1) (fun _ : Z => Some [tt]) (Some "Bearer")
    = TokenMissing /\
  token_check (fun _ : string => Some 1) (fun _ : Z => Some [tt]) (Some ("Bearer" ++ " "))
    = TokenMissing.
Proof.
  destruct (token_missing_cases (fun _ : string => Some 1) (fun _ : Z => Some [tt])
              "Bearer" "x" eq_refl) as (_ & _ & H3 & H4 & _).
  split; [exact H3|exact H4].
Defined.

(** *** Updating an activity *)

Lemma or_default_truthy f d :
  truthy_field (Some d) = true -> truthy_field (Some (or_default f d)) = true.
Proof.
  intros H; unfold or_default.
  destruct f as [j|]; [|exact H].
  destruct (truthy_field (Some j)) eqn:E; [exact E|exact H].
Qed.

Lemma or_default_falsy f d : truthy_field f = false -> or_default f d = d.
Proof. unfold or_default; destruct f as [j|]; [intros ->|]; reflexivity. Qed.

Lemma or_default_present j d : truthy_field (Some j) = true -> or_default (Some j) d = j.
Proof. unfold or_default; now intros ->. Qed.


(** X5: an update whose value is 0, null, empty or absent does not record
    a zero: the calculator is called with 5.2.  With a category string [c]
    the impact is that of [calculateImpact(c, 5.2)], which has a positive
    [co2_saved]; with a falsy category too it is the impact of
    ('transport', 5.2), [{ co2_saved: 2.08, water_conserved: 0.52 }],
    whatever the unit. *)
Theorem update_with_falsy_value (body : ActivityBody) :
  truthy_field (value body) = false ->
  (forall c, category body = Some (JStr c) -> c <> EmptyString ->
     exists u r,
       update_activity body =
         [CalculateImpact (Some (JStr c)) (Some (JNum (dec 52 1))) (Some u);
          Respond 200 None] /\
       call_result (CalculateImpact (Some (JStr c)) (Some (JNum (dec 52 1))) (Some u))
         = Some (Normal r) /\
       r = impact_of (dec 52 1) (multiplier c) /\
       (zero < co2_saved r)%js = true) /\
  (truthy_field (category body) = false ->
     exists u,
       update_activity body =
         [CalculateImpact (Some (JStr "transport")) (Some (JNum (dec 52 1))) (Some u);
          Respond 200 None] /\
       call_result (CalculateImpact (Some (JStr "transport")) (Some (JNum (dec 52 1))) (Some u))
         = Some (Normal {| co2_saved := dec 208 2; water_conserved := dec 52 2 |})).
Proof.
  intros Hv; split.
  - intros c Hc Hne.
    assert (Tc : truthy_field (Some (JStr c)) = true).
    { cbn. destruct (String.eqb_spec c EmptyString); [contradiction|reflexivity]. }
    do 2 eexists; split; [|split; [|split]].
    + unfold update_activity.
      rewrite (or_default_falsy _ _ Hv), Hc, (or_default_present _ _ Tc). reflexivity.
    + cbn [call_result]. rewrite calculateImpact_resolved. reflexivity.
    + reflexivity.
    + unfold multiplier. case_category c; vm_compute; reflexivity.
  - intros Hc. eexists; split.
    + unfold update_activity.
      rewrite (or_default_falsy _ _ Hv), (or_default_falsy _ _ Hc). reflexivity.
    + cbn [call_result]. rewrite calculateImpact_resolved. vm_compute. reflexivity.
Qed.

Lemma update_with_falsy_value_witness :
  truthy_field (value {| category := None; value := Some (JNum zero);
                         unit := Some (JStr "km"); timestamp := None; notes := None |})
    = false /\
  exists u,
    update_activity {| category := None; value := Some (JNum zero);
                       unit := Some (JStr "km"); timestamp := None; notes := None |} =
      [CalculateImpact (Some (JStr "transport")) (Some (JNum (dec 52 1))) (Some u);
       Respond 200 None] /\
    call_result (CalculateImpact (Some (JStr "transport")) (Some (JNum (dec 52 1))) (Some u))
      = Some (Normal {| co2_saved := dec 208 2; water_conserved := dec 52 2 |}).
Proof.
  assert (H : truthy_field
                (value {| category := None; value := Some (JNum zero);
                          unit := Some (JStr "km"); timestamp := None; notes := None |})
              = false) by reflexivity.
  split; [exact H|].
  exact (proj2 (update_with_falsy_value _ H) eq_refl).
Defined.

End EndpointFacts.

(** ** Properties of registration and login *)

Module AccountFacts.
Import JS Server Accounts.

Lemma filter_none {A} (f g : A -> bool) (l : list A) :
  existsb g l = false -> (forall x, f x = true -> g x = true) -> filter f l = [].
Proof.
  intros He Hfg; induction l as [|x l IH]; [reflexivity|].
  cbn in He |- *. apply orb_false_iff in He as [Hx Hl].
  destruct (f x) eqn:E; [apply Hfg in E; congruence|now apply IH].
Qed.

Lemma filter_head_In {A} (f : A -> bool) (l : list A) x rest :
  filter f l = x :: rest -> In x l /\ f x = true.
Proof.
  intros H. apply filter_In. rewrite H. now left.
Qed.

Lemma truthy_string s : s <> EmptyString -> truthy_field (Some (JStr s)) = true.
Proof. intros H; cbn. now destruct (String.eqb_spec s EmptyString). Qed.

Section AccountFacts.
Variable normalize : string -> string.
Variable sign : Z -> Z -> string -> string.
Variable parse : Json -> option NewUser.

(** X13: a login whose [email] is truthy but not a string (a number,
    [true], an array, an object) is not rejected as a bad request: the call
    of [toLowerCase] on it throws and the answer is 500
    INTERNAL_SERVER_ERROR. *)
Theorem login_email_not_a_string now (j : Json) (pw : Field) (db : Db) :
  truthy_field (Some j) = true -> (forall s, j <> JStr s) ->
  truthy_field pw = true ->
  login normalize sign now (Some j) pw db = Failure 500 "INTERNAL_SERVER_ERROR".
Proof.
  intros Hj Hs Hp; unfold login; rewrite Hj, Hp; cbn [negb orb].
  destruct j; try reflexivity. now destruct (Hs s).
Qed.


Lemma email_free_filter (e : string) (l : list User) :
  existsb (fun u => String.eqb (email u) e) l = false ->
  filter (fun u => String.eqb (email u) e) l = [].
Proof. intros H; now apply (filter_none _ _ _ H). Qed.

(** X15: registration and login round trip: when a registration succeeds,
    a login with the same email and password against the resulting table
    succeeds and returns the user the registration returned. *)
Theorem register_then_login now now' (body : Json) (v : NewUser) (db db' : Db)
    (user : PublicUser) (token : string) :
  parse body = Some v ->
  nu_email v <> EmptyString -> nu_password_hash v <> EmptyString ->
  register normalize sign parse now body db = (Session 201 user token, db') ->
  login normalize sign now' (Some (JStr (nu_email v)))
        (Some (JStr (nu_password_hash v))) db' =
    Session 200 user (sign now' (pu_id user) (pu_email user)).
Proof.
  intros Hp He Hw; unfold register; rewrite Hp.
  destruct (existsb _ (users db)); [discriminate|].
  cbn [id username email].
  destruct (existsb _ (users db)) eqn:E; [discriminate|].
  intros H; injection H as <- _ <-.
  unfold login; rewrite !truthy_string by assumption; cbn [negb orb users].
  rewrite filter_app.
  rewrite (filter_none _ _ _ E) by (intros x ->; apply orb_true_r).
  cbn [filter app email]. rewrite String.eqb_refl.
  cbn [same_string password_hash]. rewrite String.eqb_refl.
  reflexivity.
Qed.

(** X16: the duplicate check of the registration compares the email as
    sent, while the row is stored with the normalised email.  An email
    that differs from a registered one only by what normalisation removes
    passes the check, the insertion then violates the UNIQUE constraint,
    and the answer is 500 INTERNAL_SERVER_ERROR, not 400
    USER_ALREADY_EXISTS; no row is added. *)
Theorem register_normalised_duplicate now (body : Json) (v : NewUser) (db : Db)
    (existing : User) :
  parse body = Some v ->
  In existing (users db) -> email existing = normalize (nu_email v) ->
  (forall u, In u (users db) ->
     email u <> nu_email v /\ username u <> nu_username v) ->
  register normalize sign parse now body db =
    (Failure 500 "INTERNAL_SERVER_ERROR",
     {| users := users db; next_id := next_id db + 1 |}).
Proof.
  intros Hp Hin He Hnew; unfold register; rewrite Hp.
  assert (C : existsb (fun u => String.eqb (email u) (nu_email v)
                                || String.eqb (username u) (nu_username v)) (users db)
              = false).
  { apply not_true_is_false; intros H.
    apply existsb_exists in H as (u & Hu & H).
    destruct (Hnew u Hu) as [N1 N2].
    apply orb_prop in H as [H|H]; apply String.eqb_eq in H; contradiction. }
  rewrite C; cbn [username email].
  assert (I : existsb (fun u => String.eqb (username u) (nu_username v)
                                || String.eqb (email u) (normalize (nu_email v)))
                (users db) = true).
  { apply existsb_exists; exists existing; split; [exact Hin|].
    rewrite He, String.eqb_refl. apply orb_true_r. }
  now rewrite I.
Qed.

End AccountFacts.

Lemma login_email_not_a_string_witness :
  login (fun e => e) (fun _ _ e => e) 0 (Some (JNum (of_int 5))) (Some (JStr "pw"))
        {| users := []; next_id := 1 |}
    = Failure 500 "INTERNAL_SERVER_ERROR".
Proof.
  apply login_email_not_a_string;
    [vm_compute; reflexivity|intros s; discriminate|reflexivity].
Defined.


Lemma register_then_login_witness :
  login (fun e => e) (fun _ _ e => e) 9 (Some (JStr "new@example.com"))
        (Some (JStr "secret"))
        (snd (register (fun e => e) (fun _ _ e => e)
                (fun _ => Some {| nu_username := "new_user"; nu_email := "new@example.com";
                                  nu_password_hash := "secret"; nu_full_name := None;
                                  nu_profile_image_url := None |})
                7 JNull seed_db))
    = Session 200
        {| pu_id := 6; pu_username := "new_user"; pu_email := "new@example.com";
           pu_full_name := None; pu_profile_image_url := None |}
        "new@example.com".
Proof.
  exact (register_then_login (fun e => e) (fun _ _ e => e)
           (fun _ => Some {| nu_username := "new_user"; nu_email := "new@example.com";
                             nu_password_hash := "secret"; nu_full_name := None;
                             nu_profile_image_url := None |})
           7 9 JNull _ seed_db _ _ _ eq_refl
           ltac:(discriminate) ltac:(discriminate) eq_refl).
Defined.

Lemma register_normalised_duplicate_witness :
  register (fun e => if String.eqb e "John@Example.com" then "john@example.com" else e)
           (fun _ _ e => e)
           (fun _ => Some {| nu_username := "johnny"; nu_email := "John@Example.com";
                             nu_password_hash := "secret"; nu_full_name := None;
                             nu_profile_image_url := None |})
           7 JNull seed_db
    = (Failure 500 "INTERNAL_SERVER_ERROR",
       {| users := users seed_db; next_id := next_id seed_db + 1 |}).
Proof.
  apply (register_normalised_duplicate _ _ _ 7 JNull
           {| nu_username := "johnny"; nu_email := "John@Example.com";
              nu_password_hash := "secret"; nu_full_name := None;
              nu_profile_image_url := None |}
           seed_db
           {| id := 1; username := "john_doe"; email := "john@example.com";
              password_hash := "password123"; full_name := Some "John Doe";
              profile_image_url := Some "https://picsum.photos/seed/john_doe/200/300" |}).
  - reflexivity.
  - cbn; tauto.
  - reflexivity.
  - cbn; intros u [<-|[<-|[<-|[<-|[<-|[]]]]]]; split; discriminate.
Defined.

End AccountFacts.

(** ** Further properties of the calculator *)

Module ImpactMore.
Import JS JSLib Impact Rounding SignFacts RoundingFacts ImpactFacts.
Local Open Scope js_scope.

Lemma leb_keeps_sign x y :
  has_sign false x = true -> (x <= y) = true -> has_sign false y = true.
Proof.
  destruct x as [s|[]| |[] m e]; try discriminate;
    destruct y as [s'|[]| |[] m' e']; try reflexivity; discriminate.
Qed.

Lemma ordered_intro x y :
  valid x = true -> valid y = true ->
  (zero <= x) = true -> (x <= y) = true -> ordered x y.
Proof.
  intros Vx Vy Zx L. rewrite leb_zero_l in Zx.
  repeat split; try assumption. now apply (leb_keeps_sign x y).
Qed.

Lemma impact_mono (category : string) (v1 v2 : Number) :
  ordered v1 v2 ->
  (co2_saved (impact_of v1 (multiplier category))
     <= co2_saved (impact_of v2 (multiplier category))) = true /\
  (water_conserved (impact_of v1 (multiplier category))
     <= water_conserved (impact_of v2 (multiplier category))) = true.
Proof.
  intros O. destruct (multiplier_ordered category) as (Nc & Nw & _).
  cbn [impact_of co2_saved water_conserved].
  split; apply round2_mono, mul_mono_l; assumption.
Qed.

(** X1: the calculator is monotone in the value: for binary64 numbers
    [0 <= v1 <= v2] and one category, neither field of the result for
    [v1] exceeds the field of the result for [v2], whatever the units. *)
Theorem calculateImpact_monotone (category : string) (v1 v2 : Number) (u1 u2 : string) :
  valid v1 = true -> valid v2 = true ->
  (zero <= v1) = true -> (v1 <= v2) = true ->
  exists r1 r2,
    calculateImpact category v1 u1 = Normal r1 /\
    calculateImpact category v2 u2 = Normal r2 /\
    (co2_saved r1 <= co2_saved r2) = true /\
    (water_conserved r1 <= water_conserved r2) = true.
Proof.
  intros V1 V2 Z L.
  rewrite !calculateImpact_resolved.
  do 2 eexists; split; [reflexivity|split; [reflexivity|]].
  now apply impact_mono, ordered_intro.
Qed.

Lemma calculateImpact_monotone_witness :
  valid (dec 21 1) = true /\ valid (dec 52 1) = true /\
  (zero <= dec 21 1) = true /\ (dec 21 1 <= dec 52 1) = true /\
  exists r1 r2,
    calculateImpact "waste" (dec 21 1) "kg" = Normal r1 /\
    calculateImpact "waste" (dec 52 1) "lb" = Normal r2 /\
    (co2_saved r1 <= co2_saved r2) = true /\
    (water_conserved r1 <= water_conserved r2) = true.
Proof.
  assert (H1 : valid (dec 21 1) = true) by (vm_compute; reflexivity).
  assert (H2 : valid (dec 52 1) = true) by (vm_compute; reflexivity).
  assert (H3 : (zero <= dec 21 1) = true) by (vm_compute; reflexivity).
  assert (H4 : (dec 21 1 <= dec 52 1) = true) by (vm_compute; reflexivity).
  repeat (split; [assumption|]).
  exact (calculateImpact_monotone "waste" (dec 21 1) (dec 52 1) "kg" "lb" H1 H2 H3 H4).
Defined.

(** X2: values that are not finite propagate: for every category, NaN
    gives NaN in both fields, +Infinity gives +Infinity and -Infinity gives
    -Infinity; the calculator does not throw on them. *)
Theorem calculateImpact_not_finite (category unit : string) :
  calculateImpact category NaN unit =
    Normal {| co2_saved := NaN; water_conserved := NaN |} /\
  calculateImpact category (S754_infinity false) unit =
    Normal {| co2_saved := S754_infinity false;
              water_conserved := S754_infinity false |} /\
  calculateImpact category (S754_infinity true) unit =
    Normal {| co2_saved := S754_infinity true;
              water_conserved := S754_infinity true |}.
Proof.
  rewrite !calculateImpact_resolved.
  destruct (multiplier_positive category) as (m1 & e1 & m2 & e2 & ->).
  repeat split.
Qed.

(** 1e305, as the literal denotes it. *)
Lemma big_valid : valid (of_int (10 ^ 305)) = true.
Proof. vm_compute; reflexivity. Qed.

Lemma big_impact_finite (category : string) :
  is_finite (co2_saved (impact_of (of_int (10 ^ 305)) (multiplier category))) = true /\
  is_finite (water_conserved (impact_of (of_int (10 ^ 305)) (multiplier category))) = true.
Proof.
  unfold multiplier. case_category category; vm_compute; split; reflexivity.
Qed.

Lemma below_finite x y :
  has_sign false x = true -> (x <= y) = true -> is_finite y = true ->
  is_finite x = true.
Proof.
  destruct x as [s|[]| |[] m e]; try discriminate; try reflexivity.
  destruct y as [s'|[]| |[] m' e']; discriminate.
Qed.

(** X3: no overflow below 1e305: for every category and every binary64
    value with [0 <= value <= 1e305], both fields of the result are finite
    numbers (and, by C5, non-negative). *)
Theorem calculateImpact_finite (category : string) (value : Number) (unit : string) :
  valid value = true -> (zero <= value) = true ->
  (value <= of_int (10 ^ 305)) = true ->
  exists r,
    calculateImpact category value unit = Normal r /\
    is_finite (co2_saved r) = true /\ is_finite (water_conserved r) = true.
Proof.
  intros V Z L.
  rewrite calculateImpact_resolved. eexists; split; [reflexivity|].
  pose proof (ordered_intro _ _ V big_valid Z L) as O.
  destruct (impact_mono category _ _ O) as [Lc Lw].
  destruct (big_impact_finite category) as [Fc Fw].
  rewrite leb_zero_l in Z.
  destruct (impact_sign false category value Z) as [Sc Sw].
  split; eapply below_finite; eassumption.
Qed.

Lemma calculateImpact_finite_witness :
  valid (of_int 1000000000) = true /\ (zero <= of_int 1000000000) = true /\
  (of_int 1000000000 <= of_int (10 ^ 305)) = true /\
  exists r,
    calculateImpact "energy" (of_int 1000000000) "kwh" = Normal r /\
    is_finite (co2_saved r) = true /\ is_finite (water_conserved r) = true.
Proof.
  assert (H1 : valid (of_int 1000000000) = true) by (vm_compute; reflexivity).
  assert (H2 : (zero <= of_int 1000000000) = true) by (vm_compute; reflexivity).
  assert (H3 : (of_int 1000000000 <= of_int (10 ^ 305)) = true) by (vm_compute; reflexivity).
  repeat (split; [assumption|]).
  exact (calculateImpact_finite "energy" (of_int 1000000000) "kwh" H1 H2 H3).
Defined.

End ImpactMore.

(** ** Properties of the list endpoints *)

Module PageFacts.
Import JS JSLib Rounding SignFacts RoundingFacts Endpoints.
Local Open Scope list_scope.

(** *** Integers as binary64 numbers *)

(** The number of a positive integer below 2^53 is that integer, with a
    significand of 53 digits. *)
Lemma of_int_finite n :
  0 < n < 2 ^ 53 ->
  exists p e, of_int n = S754_finite false p e /\ -52 <= e <= 0 /\
              Zpos p = n * 2 ^ (- e).
Proof.
  intros [Hn Hlt].
  destruct n as [|q|q]; try lia.
  unfold of_int; cbn [binary_normalize]. rewrite binary_round_rounded.
  pose proof (Zdigits2_bounds (Zpos q) Hn) as [B1 B2].
  set (d := Zdigits2 (Zpos q)) in *.
  assert (Hd1 : 1 <= d) by (subst d; cbn; lia).
  assert (Hd : d <= 53).
  { destruct (Z_le_gt_dec d 53) as [|G]; [assumption|exfalso].
    assert (2 ^ 53 <= 2 ^ (d - 1)) by (apply Z.pow_le_mono_r; lia). lia. }
  assert (T : target (exact (Zpos q * 2 ^ 52)) (-52) = d - 53).
  { unfold target, exact; cbn [shr_m]. rewrite fexp_eq, Zdigits2_mul_pow2 by lia.
    fold d. lia. }
  rewrite rounded_eq, T.
  replace (d - 53 - -52) with (d - 1) by lia.
  assert (P1 : 0 < 2 ^ (53 - d)) by (apply Z.pow_pos_nonneg; lia).
  assert (E : Zpos q * 2 ^ 52 = (Zpos q * 2 ^ (53 - d)) * 2 ^ Z.of_nat (Z.to_nat (d - 1))).
  { rewrite Z2Nat.id, <- Z.mul_assoc, <- Z.pow_add_r by lia. do 2 f_equal; lia. }
  rewrite E, shrn_exact by nia.
  change (rne (exact ?m)) with m.
  assert (U : Zpos q * 2 ^ (53 - d) < 2 ^ 53).
  { replace 53 with (d + (53 - d)) at 2 by lia. rewrite Z.pow_add_r by lia. nia. }
  assert (L : 2 ^ 52 <= Zpos q * 2 ^ (53 - d)).
  { replace 52 with ((d - 1) + (53 - d)) at 1 by lia. rewrite Z.pow_add_r by lia. nia. }
  rewrite finish_spec by lia.
  destruct (Z.ltb_spec (Zpos q * 2 ^ (53 - d)) (2 ^ 53)); [|lia].
  unfold pack.
  destruct (Zpos q * 2 ^ (53 - d)) as [|p|p] eqn:Ep; try lia.
  replace (-52 + Z.max 0 (d - 1)) with (d - 53) by lia.
  destruct (Z.leb_spec (d - 53) 971); [|lia].
  exists p, (d - 53). repeat split; try lia.
  replace (- (d - 53)) with (53 - d) by lia. now rewrite <- Ep.
Qed.

Lemma ToInteger_finite p e :
  e <= 0 -> ToIntegerOrInfinity (S754_finite false p e) = Finite (Zpos p / 2 ^ (- e)).
Proof.
  intros He; cbn [ToIntegerOrInfinity].
  destruct e as [|e|k]; try lia.
  - cbn. now rewrite Z.div_1_r, Pos.mul_1_r.
  - now rewrite Z.shiftr_div_pow2 by lia.
Qed.

Lemma ToInteger_of_int n :
  0 <= n < 2 ^ 53 -> ToIntegerOrInfinity (of_int n) = Finite n.
Proof.
  intros [Hn Hlt].
  destruct (Z.eq_dec n 0) as [->|Hz]; [reflexivity|].
  destruct (of_int_finite n ltac:(lia)) as (p & e & -> & He & Hp).
  rewrite ToInteger_finite, Hp by lia.
  assert (0 < 2 ^ (- e)) by (apply Z.pow_pos_nonneg; lia).
  now rewrite Z.div_mul by lia.
Qed.

Lemma shl_align_fst mx ex ez :
  ez <= ex -> Zpos (fst (shl_align mx ex ez)) = Zpos mx * 2 ^ (ex - ez).
Proof.
  intros H; unfold shl_align.
  destruct (ez - ex) as [|d|d] eqn:E; try lia; cbn [fst].
  - replace (ex - ez) with 0 by lia. lia.
  - rewrite pos_iter_xO. do 2 f_equal; lia.
Qed.

(** The number [binary_round] builds, as the rounding of a scaled
    significand. *)
Lemma binary_round_scaled p e :
  -52 <= e -> 1 <= Zdigits2 (Zpos p) + e ->
  binary_round prec emax false p e = rounded (exact (Zpos p * 2 ^ (e + 52))) (-52).
Proof.
  intros He Hd; unfold binary_round, shl_align.
  rewrite fexp_eq. change (Z.pos (digits2_pos p)) with (Zdigits2 (Zpos p)).
  set (d := Zdigits2 (Zpos p)) in *.
  assert (Hd1 : 1 <= d) by (subst d; cbn; lia).
  destruct (Z.max (d + e - 53) (-1074) - e) as [|j|j] eqn:E.
  - change (binary_round_aux prec emax false (Zpos p) e loc_Exact)
      with (rounded (exact (Zpos p)) e).
    pose proof (rounded_exact_align (Zpos p) e (e + 52)) as A.
    replace (e - (e + 52)) with (-52) in A by lia.
    symmetry; apply A; try lia.
    unfold target, exact; cbn [shr_m]; rewrite fexp_eq; fold d; lia.
  - change (binary_round_aux prec emax false (Zpos p) e loc_Exact)
      with (rounded (exact (Zpos p)) e).
    pose proof (rounded_exact_align (Zpos p) e (e + 52)) as A.
    replace (e - (e + 52)) with (-52) in A by lia.
    symmetry; apply A; try lia.
    unfold target, exact; cbn [shr_m]; rewrite fexp_eq; fold d; lia.
  - set (e' := Z.max (d + e - 53) (-1074)) in *.
    change (binary_round_aux prec emax false (Zpos (Pos.iter xO p j)) e' loc_Exact)
      with (rounded (exact (Zpos (Pos.iter xO p j))) e').
    rewrite pos_iter_xO.
    assert (Hp : 0 < 2 ^ Zpos j) by (apply Z.pow_pos_nonneg; lia).
    pose proof (rounded_exact_align (Zpos p * 2 ^ Zpos j) e' (e' + 52)) as A.
    replace (e' - (e' + 52)) with (-52) in A by lia.
    replace (Zpos p * 2 ^ Zpos j * 2 ^ (e' + 52)) with (Zpos p * 2 ^ (e + 52)) in A.
    + symmetry; apply A; try nia; try lia.
      unfold target, exact; cbn [shr_m]; rewrite fexp_eq.
      rewrite Zdigits2_mul_pow2 by lia. fold d. lia.
    + rewrite <- Z.mul_assoc, <- Z.pow_add_r by lia. do 2 f_equal; lia.
Qed.

(** The sum of the numbers of two non-negative integers below 2^53 is the
    number of their sum. *)
Lemma add_of_int a b :
  0 <= a < 2 ^ 53 -> 0 <= b < 2 ^ 53 -> add (of_int a) (of_int b) = of_int (a + b).
Proof.
  intros Ha Hb.
  destruct (Z.eq_dec a 0) as [->|Za].
  { destruct (Z.eq_dec b 0) as [->|Zb]; [reflexivity|].
    destruct (of_int_finite b ltac:(lia)) as (p & e & E & _). cbn [Z.add]. now rewrite E. }
  destruct (Z.eq_dec b 0) as [->|Zb].
  { destruct (of_int_finite a ltac:(lia)) as (p & e & E & _).
    rewrite Z.add_0_r. now rewrite E. }
  destruct (of_int_finite a ltac:(lia)) as (pa & ea & -> & Ea & Pa).
  destruct (of_int_finite b ltac:(lia)) as (pb & eb & -> & Eb & Pb).
  unfold add, SFadd. cbn [cond_Zopp].
  set (ez := Z.min ea eb).
  rewrite !shl_align_fst by lia.
  assert (P1 : 0 < 2 ^ (ea - ez)) by (apply Z.pow_pos_nonneg; lia).
  assert (P2 : 0 < 2 ^ (eb - ez)) by (apply Z.pow_pos_nonneg; lia).
  assert (P3 : 0 < 2 ^ (- ez)) by (apply Z.pow_pos_nonneg; lia).
  assert (S : Zpos pa * 2 ^ (ea - ez) + Zpos pb * 2 ^ (eb - ez) = (a + b) * 2 ^ (- ez)).
  { rewrite Pa, Pb, <- !Z.mul_assoc, <- !Z.pow_add_r by lia.
    replace (- ea + (ea - ez)) with (- ez) by lia.
    replace (- eb + (eb - ez)) with (- ez) by lia. lia. }
  rewrite S.
  destruct ((a + b) * 2 ^ (- ez)) as [|ps|ps] eqn:Es; try nia.
  cbn [binary_normalize].
  assert (Dg : Zdigits2 (Zpos ps) = Zdigits2 (a + b) + - ez).
  { rewrite <- Es. apply Zdigits2_mul_pow2; lia. }
  assert (D1 : 1 <= Zdigits2 (a + b)).
  { destruct (a + b) eqn:Eab; try lia; cbn; lia. }
  rewrite binary_round_scaled by lia.
  rewrite <- Es, <- Z.mul_assoc, <- Z.pow_add_r by lia.
  replace (- ez + (ez + 52)) with 52 by lia.
  unfold of_int. destruct (a + b) as [|c|c] eqn:Eab; try lia.
  cbn [binary_normalize]. now rewrite binary_round_rounded.
Qed.

(** *** Pages *)

Lemma relative_bounds len i : 0 <= len -> 0 <= relative len i <= len.
Proof.
  intros H; destruct i as [n| |]; cbn; try lia.
  destruct (Z.ltb_spec n 0); lia.
Qed.

Lemma add_nan_r x : add x NaN = NaN.
Proof. destruct x; reflexivity. Qed.

Lemma firstn_skipn_window {A} (l : list A) (a b : nat) :
  firstn (Nat.min (a + b) (List.length l) - Nat.min a (List.length l))
         (skipn (Nat.min a (List.length l)) l) =
  firstn b (skipn a l).
Proof.
  destruct (Nat.le_gt_cases (List.length l) a) as [H|H].
  - rewrite !Nat.min_r by lia. rewrite Nat.sub_diag.
    rewrite (skipn_all2 l H). now destruct b.
  - rewrite (Nat.min_l a) by lia.
    destruct (Nat.le_gt_cases (a + b) (List.length l)) as [H2|H2].
    + rewrite Nat.min_l by lia. f_equal; lia.
    + rewrite Nat.min_r by lia.
      rewrite !firstn_all2; try reflexivity; rewrite length_skipn; lia.
Qed.

(** X8: a page is always a run of consecutive items of the list, in their
    order, whatever numbers the offset and the limit are (negative,
    fractional, infinite or NaN): the list endpoints never fail on them and
    never reorder, repeat or invent an item. *)
Theorem paginate_segment {A} (items : list A) (offset limit : Number) :
  exists before after,
    items = before ++ paginate items offset limit ++ after.
Proof.
  unfold paginate, slice; cbv zeta.
  match goal with
  | |- context [firstn ?n (skipn ?k items)] =>
      exists (firstn k items), (skipn n (skipn k items))
  end.
  now rewrite !firstn_skipn.
Qed.

(** X9: when the offset or the limit is NaN, as [Number] gives for a
    query value that is not a numeral, the page is empty; the request is
    not rejected. *)
Theorem paginate_nan {A} (items : list A) (x : Number) :
  paginate items NaN x = [] /\ paginate items x NaN = [].
Proof.
  assert (R0 : relative (Z.of_nat (List.length items)) (ToIntegerOrInfinity NaN) = 0).
  { cbn. lia. }
  pose proof (relative_bounds (Z.of_nat (List.length items)) (ToIntegerOrInfinity x)
                ltac:(lia)) as B.
  split; unfold paginate, slice.
  - change (add NaN x) with NaN. rewrite R0. reflexivity.
  - rewrite add_nan_r, R0.
    replace (Z.to_nat _) with 0%nat by lia. reflexivity.
Qed.

(** X10: for integers [offset >= 0] and [limit >= 0] with a sum below
    2^53 the page is the [limit] items that follow the first [offset]
    ones, fewer at the end of the list: binary64 addition and the
    truncations of [slice] lose nothing. *)
Theorem paginate_integers {A} (items : list A) (offset limit : Z) :
  0 <= offset -> 0 <= limit -> offset + limit < 2 ^ 53 ->
  paginate items (of_int offset) (of_int limit) =
  firstn (Z.to_nat limit) (skipn (Z.to_nat offset) items).
Proof.
  intros Ho Hl Hs; unfold paginate, slice.
  rewrite add_of_int, !ToInteger_of_int by lia.
  cbn [relative].
  destruct (Z.ltb_spec offset 0); [lia|].
  destruct (Z.ltb_spec (offset + limit) 0); [lia|].
  rewrite <- (firstn_skipn_window items (Z.to_nat offset) (Z.to_nat limit)).
  f_equal; [|f_equal]; lia.
Qed.

Lemma firstn_add {A} (l : list A) (b c : nat) :
  firstn (b + c) l = firstn b l ++ firstn c (skipn b l).
Proof.
  revert l; induction b as [|b IH]; intros [|x l]; cbn; try reflexivity.
  - now destruct c.
  - now rewrite IH.
Qed.

(** X11: consecutive pages compose: the page of [n] items at [offset]
    followed by the page of [m] items at [offset + n] is the page of
    [n + m] items at [offset]. *)
Theorem paginate_consecutive {A} (items : list A) (offset n m : Z) :
  0 <= offset -> 0 <= n -> 0 <= m -> offset + n + m < 2 ^ 53 ->
  paginate items (of_int offset) (of_int n) ++
  paginate items (of_int (offset + n)) (of_int m) =
  paginate items (of_int offset) (of_int (n + m)).
Proof.
  intros Ho Hn Hm Hs.
  rewrite !paginate_integers by lia.
  rewrite !Z2Nat.inj_add by lia.
  rewrite firstn_add, skipn_skipn. do 3 f_equal. lia.
Qed.

(** X12: the [range] of [GET /api/impact] has no effect: "daily" keeps
    the last 7 rows and "weekly" the last 4 of a list of 4 rows, so every
    range returns the same four rows of historical data. *)
Theorem impact_history_ignores_range (range : string) :
  impact_history range = mock_historical_data.
Proof.
  unfold impact_history.
  destruct (String.eqb range "daily"); [vm_compute; reflexivity|].
  destruct (String.eqb range "weekly"); [vm_compute; reflexivity|reflexivity].
Qed.

Lemma paginate_integers_witness :
  0 <= 1 /\ 0 <= 2 /\ 1 + 2 < 2 ^ 53 /\
  paginate ["a"; "b"; "c"; "d"] (of_int 1) (of_int 2) = ["b"; "c"].
Proof.
  assert (H1 : 0 <= 1) by lia. assert (H2 : 0 <= 2) by lia.
  assert (H3 : 1 + 2 < 2 ^ 53) by (vm_compute; reflexivity).
  repeat (split; [assumption|]).
  exact (paginate_integers ["a"; "b"; "c"; "d"] 1 2 H1 H2 H3).
Defined.

Lemma paginate_consecutive_witness :
  0 <= 1 /\ 0 <= 2 /\ 0 <= 3 /\ 1 + 2 + 3 < 2 ^ 53 /\
  paginate ["a"; "b"; "c"; "d"] (of_int 1) (of_int 2) ++
  paginate ["a"; "b"; "c"; "d"] (of_int (1 + 2)) (of_int 3) =
  paginate ["a"; "b"; "c"; "d"] (of_int 1) (of_int (2 + 3)).
Proof.
  assert (H1 : 0 <= 1) by lia. assert (H2 : 0 <= 2) by lia.
  assert (H3 : 0 <= 3) by lia.
  assert (H4 : 1 + 2 + 3 < 2 ^ 53) by (vm_compute; reflexivity).
  repeat (split; [assumption|]).
  exact (paginate_consecutive ["a"; "b"; "c"; "d"] 1 2 3 H1 H2 H3 H4).
Defined.

End PageFacts.

(** ** Properties of the profile update *)

Module ProfileFacts.
Import JS Server Accounts.
Local Open Scope list_scope.

Section ProfileFacts.
Variable normalize : string -> string.
Variable parse_update : string -> Json -> option UserUpdate.


End ProfileFacts.


End ProfileFacts.
